(** * Neron MCP server: a shallow embedding of the Python sources

    The development follows the five source files:
    - [config.py]            : the configuration surface ([Config]);
    - [db_connector.py]      : the pooled data layer, over a model of the
                               psycopg2 connection pool and of the store;
    - [server.py]            : the tool dispatch handler [call_tool];
    - [http_server.py]       : the bearer gate ([verify_token], [handle_mcp]);
    - [fake_oauth_server.py] : the handshake endpoints.

    Python code that mutates module globals, talks to the network or raises
    is written in a state-and-exception monad [M] over a [World]; pure code
    is written as plain functions. *)

From Stdlib Require Import ZArith String Ascii QArith Qround Qabs DecimalString.
From stdpp Require Import gmap strings list sorting.

Set Warnings "-register-all,-clear-no-such-hyp,-notation-for-abbreviation".


Open Scope Z_scope.

(** ** Python values, exceptions and results *)

(** A Python [float]: not a number, an infinity, or a finite number, given
    by its exact value. *)
Inductive PyFloat :=
| FNan
| FInf (negative : bool)
| FNum (x : Q).

(** The values that can reach [call_tool] in the argument dictionary, which
    is decoded from JSON.  A float comes with its [str()].  [VOther] stands
    for lists, dictionaries and every other object, by the name of its type
    and its [str()]. *)
Inductive PyVal :=
| VNone
| VBool (b : bool)
| VInt (z : Z)
| VFloat (x : PyFloat) (repr : string)
| VStr (s : string)
| VOther (type_name repr : string).

(** Exception classes; every one of them derives from Python's [Exception]. *)
Inductive ExnClass :=
| RuntimeError
| ValueError
| KeyError
| TypeError
| AttributeError
| IndexError
| PoolError            (* psycopg2.pool.PoolError *)
| OperationalError     (* psycopg2.OperationalError *)
| InterfaceError       (* psycopg2.InterfaceError *)
| ProgrammingError     (* psycopg2.ProgrammingError *)
| DataError            (* psycopg2.DataError *)
| ServiceError (name : string).  (* an exception class of an external client *)

(** An exception instance: class, [str(e)], and the [__cause__] set by
    [raise ... from e]. *)
Inductive exn :=
| Exn (cls : ExnClass) (msg : string) (cause : option exn).

Definition exn_class (e : exn) : ExnClass := let 'Exn c _ _ := e in c.
Definition exn_str (e : exn) : string := let 'Exn _ m _ := e in m.
Definition exn_cause (e : exn) : option exn := let 'Exn _ _ c := e in c.

Inductive result (A : Type) :=
| Ok (a : A)
| Raise (e : exn).
Arguments Ok {A} a.
Arguments Raise {A} e.

Definition z2s (z : Z) : string := NilZero.string_of_int (Z.to_int z).
Definition n2s (n : nat) : string := NilZero.string_of_uint (Nat.to_uint n).

(** [str(v)] as used by f-strings. *)
Definition py_str (v : PyVal) : string :=
  match v with
  | VNone => "None"
  | VBool true => "True"
  | VBool false => "False"
  | VInt z => z2s z
  | VFloat _ r => r
  | VStr s => s
  | VOther _ r => r
  end.

(** [type(v).__name__], for the messages of [TypeError]. *)
Definition py_type_name (v : PyVal) : string :=
  match v with
  | VNone => "NoneType"
  | VBool _ => "bool"
  | VInt _ => "int"
  | VFloat _ _ => "float"
  | VStr _ => "str"
  | VOther t _ => t
  end.

(** [range(n)] *)
Definition py_range (n : Z) : list Z := Z.of_nat <$> seq 0 (Z.to_nat n).

(** ** config.py *)

(** The module-level constants of [config.py], read once from the
    environment.  [os.getenv] without a default gives [None] when the
    variable is unset. *)
Record Config := mkConfig {
  MCP_SERVER_NAME : string;
  MCP_AUTH_TOKEN : option string;
  VOYAGE_API_KEY : option string;
  VOYAGE_MODEL : string;
  EMBEDDING_DIMENSION : Z;
  DB_HOST : string;
  DB_PORT : string;
  DB_NAME : string;
  DB_USER : string;
  DB_PASSWORD : option string;
  DB_MIN_CONNECTIONS : Z;
  DB_MAX_CONNECTIONS : Z
}.

(** [config.SERVER_DOMAIN].  [http_server.py] and [fake_oauth_server.py]
    read this attribute, and [config.py] binds no such name: the lookup on
    the module raises, whatever the environment holds. *)
Definition SERVER_DOMAIN (config : Config) : result string :=
  Raise (Exn AttributeError "module 'config' has no attribute 'SERVER_DOMAIN'" None).

(** [if not v] on an [Optional[str]]: [None] and the empty string are falsy. *)
Definition falsy_opt (v : option string) : bool :=
  match v with
  | None => true
  | Some s => bool_decide (s = EmptyString)
  end.

(** [validate_config]: the names of the required settings that are missing. *)
Definition missing_config (config : Config) : list string :=
  fst <$> filter (λ kv, falsy_opt kv.2 = true)
    [("MCP_AUTH_TOKEN", MCP_AUTH_TOKEN config);
     ("VOYAGE_API_KEY", VOYAGE_API_KEY config);
     ("DB_PASSWORD", DB_PASSWORD config)].

Fixpoint join (sep : string) (l : list string) : string :=
  match l with
  | [] => EmptyString
  | [x] => x
  | x :: rest => x +:+ sep +:+ join sep rest
  end.

Definition validate_config (config : Config) : result unit :=
  match missing_config config with
  | [] => Ok tt
  | missing =>
      Raise (Exn ValueError ("Missing required config: " +:+ join ", " missing) None)
  end.

(** ** Dates and timestamps *)

Record date := mkDate { d_year : Z; d_month : Z; d_day : Z }.

Record datetime := mkDatetime {
  dt_date : date;
  dt_hour : Z; dt_minute : Z; dt_second : Z; dt_micro : Z
}.

Global Instance date_eq_dec : EqDecision date.
Proof. solve_decision. Defined.

(** Naive timestamps compare field by field, most significant first. *)
Definition dt_fields (t : datetime) : list Z :=
  [d_year (dt_date t); d_month (dt_date t); d_day (dt_date t);
   dt_hour t; dt_minute t; dt_second t; dt_micro t].

Fixpoint lex_leb (a b : list Z) : bool :=
  match a, b with
  | [], _ => true
  | _ :: _, [] => false
  | x :: a', y :: b' =>
      if x <? y then true else if y <? x then false else lex_leb a' b'
  end.

Definition dt_leb (s t : datetime) : bool := lex_leb (dt_fields s) (dt_fields t).

(** Zero padding to a width, as [%02d] does for non-negative fields. *)
Fixpoint zeros (n : nat) : string :=
  match n with
  | O => EmptyString
  | S n' => "0" +:+ zeros n'
  end.

Definition pad (width : nat) (z : Z) : string :=
  let s := z2s z in zeros (width - String.length s) +:+ s.

(** [%Y-%m-%d]: the C library writes the year as it is and pads the month
    and the day to two digits. *)
Definition strftime_date (d : date) : string :=
  z2s (d_year d) +:+ "-" +:+ pad 2 (d_month d) +:+ "-" +:+ pad 2 (d_day d).

(** [timestamp.strftime('%H:%M:%S')] *)
Definition strftime_HMS (t : datetime) : string :=
  pad 2 (dt_hour t) +:+ ":" +:+ pad 2 (dt_minute t) +:+ ":" +:+ pad 2 (dt_second t).

(** [timestamp.strftime('%Y-%m-%d %H:%M')] *)
Definition strftime_Ymd_HM (t : datetime) : string :=
  strftime_date (dt_date t) +:+ " " +:+ pad 2 (dt_hour t) +:+ ":" +:+ pad 2 (dt_minute t).

(** [timestamp.strftime('%Y-%m-%d')] *)
Definition strftime_Ymd (t : datetime) : string := strftime_date (dt_date t).

(** *** [datetime.strptime(s, "%Y-%m-%d").date()]

    The library compiles the format to the regular expression
    [(\d\d\d\d)-(1[0-2]|0[1-9]|[1-9])-(3[0-1]|[1-2]\d|0[1-9]|[1-9]| [1-9])],
    matches it at the start of the string, rejects unconverted trailing
    data, reads the three groups with [int] and then builds the date, which
    checks the year and the day against the month.  Every rejection is a
    [ValueError].

    In the expression [\d] is any decimal digit of Unicode, and [int] reads
    such digits by their value, while the classes [[0-2]], [[1-9]] and the
    single digits hold ASCII digits only.  Strings stand for their UTF-8
    bytes, so a [\d] reads one encoded character. *)

(** A continuation byte of UTF-8 and the six bits it carries. *)
Definition continuation (c : ascii) : option Z :=
  let n := Z.of_nat (nat_of_ascii c) in
  if (128 <=? n) && (n <? 192) then Some (n - 128) else None.

Fixpoint continuations (k : nat) (acc : Z) (s : string) : option (Z * string) :=
  match k, s with
  | O, _ => Some (acc, s)
  | S k', String c rest =>
      match continuation c with
      | Some bits => continuations k' (64 * acc + bits) rest
      | None => None
      end
  | S _, EmptyString => None
  end.

Definition code_point_within (lo hi : Z) (r : option (Z * string)) : option (Z * string) :=
  match r with
  | Some (cp, rest) =>
      if (lo <=? cp) && (cp <=? hi) && negb ((55296 <=? cp) && (cp <=? 57343))
      then Some (cp, rest) else None
  | None => None
  end.

(** The first character of a string, as its code point, and what follows. *)
Definition decode_char (s : string) : option (Z * string) :=
  match s with
  | EmptyString => None
  | String c rest =>
      let n := Z.of_nat (nat_of_ascii c) in
      if n <? 128 then Some (n, rest)
      else if n <? 192 then None
      else if n <? 224 then code_point_within 128 2047 (continuations 1 (n - 192) rest)
      else if n <? 240 then code_point_within 2048 65535 (continuations 2 (n - 224) rest)
      else if n <? 248 then code_point_within 65536 1114111 (continuations 3 (n - 240) rest)
      else None
  end.

(** The decimal digits (category [Nd]) come in runs of ten, zero to nine;
    these are the code points of the zeros, in Unicode 14.0, the character
    database of Python 3.11. *)
Definition decimal_zeros : list Z :=
  [48; 1632; 1776; 1984; 2406; 2534; 2662; 2790; 2918; 3046; 3174; 3302;
   3430; 3558; 3664; 3792; 3872; 4160; 4240; 6112; 6160; 6470; 6608; 6784;
   6800; 6992; 7088; 7232; 7248; 42528; 43216; 43264; 43472; 43504; 43600;
   44016; 65296; 66720; 68912; 69734; 69872; 69942; 70096; 70384; 70736;
   70864; 71248; 71360; 71472; 71904; 72016; 72784; 73040; 73120; 92768;
   92864; 93008; 120782; 120792; 120802; 120812; 120822; 123200; 123632;
   125264; 130032].

(** [unicodedata.decimal(chr(cp))], if [cp] is a decimal digit. *)
Definition decimal_value (cp : Z) : option Z :=
  match List.find (λ zero, (zero <=? cp) && (cp <? zero + 10)) decimal_zeros with
  | Some zero => Some (cp - zero)
  | None => None
  end.

(** The pieces the groups of the expression are made of. *)
Inductive Atom :=
| digit_in (lo hi : Z)     (* an ASCII digit between [lo] and [hi] *)
| any_digit                (* [\d] *)
| blank.                   (* a space *)

(** What an atom reads at the start of a string: the value of the digit,
    if it reads a digit, and the rest of the string. *)
Definition match_atom (a : Atom) (s : string) : option (option Z * string) :=
  match a with
  | digit_in lo hi =>
      match s with
      | String c rest =>
          let d := Z.of_nat (nat_of_ascii c) - 48 in
          if (lo <=? d) && (d <=? hi) then Some (Some d, rest) else None
      | EmptyString => None
      end
  | any_digit =>
      match decode_char s with
      | Some (cp, rest) =>
          match decimal_value cp with
          | Some d => Some (Some d, rest)
          | None => None
          end
      | None => None
      end
  | blank =>
      match s with
      | String c rest => if Ascii.eqb c " "%char then Some (None, rest) else None
      | EmptyString => None
      end
  end.

(** One alternative of a group, and what [int] makes of the text it
    matched: the digits by their values, a leading space skipped. *)
Fixpoint match_atoms (atoms : list Atom) (acc : Z) (s : string) : option (Z * string) :=
  match atoms with
  | [] => Some (acc, s)
  | a :: atoms' =>
      match match_atom a s with
      | Some (Some d, rest) => match_atoms atoms' (10 * acc + d) rest
      | Some (None, rest) => match_atoms atoms' acc rest
      | None => None
      end
  end.

Definition alt (atoms : list Atom) (s : string) : option (Z * string) :=
  match_atoms atoms 0 s.

(** The alternatives of a group, in the order the regular expression tries them. *)
Definition year_alts : list (string → option (Z * string)) :=
  [alt [any_digit; any_digit; any_digit; any_digit]].

Definition month_alts : list (string → option (Z * string)) :=
  [alt [digit_in 1 1; digit_in 0 2]; alt [digit_in 0 0; digit_in 1 9]; alt [digit_in 1 9]].

Definition day_alts : list (string → option (Z * string)) :=
  [alt [digit_in 3 3; digit_in 0 1]; alt [digit_in 1 2; any_digit];
   alt [digit_in 0 0; digit_in 1 9]; alt [digit_in 1 9]; alt [blank; digit_in 1 9]].

Definition dash (s : string) : option string :=
  match s with
  | String c rest => if Ascii.eqb c "-"%char then Some rest else None
  | _ => None
  end.

(** First alternative (in order) for which the continuation succeeds:
    the backtracking of the matcher. *)
Fixpoint first_match {A B} (alts : list (string → option (A * string)))
    (k : A → string → option B) (s : string) : option B :=
  match alts with
  | [] => None
  | alt :: alts' =>
      match alt s with
      | Some (a, rest) =>
          match k a rest with
          | Some b => Some b
          | None => first_match alts' k s
          end
      | None => first_match alts' k s
      end
  end.

(** The match: year, month, day and the unconverted remainder. *)
Definition match_ymd (s : string) : option (Z * Z * Z * string) :=
  first_match year_alts (λ y s1,
    match dash s1 with
    | Some s2 =>
        first_match month_alts (λ m s3,
          match dash s3 with
          | Some s4 => first_match day_alts (λ d s5, Some (y, m, d, s5)) s4
          | None => None
          end) s2
    | None => None
    end) s.

Definition is_leap (y : Z) : bool :=
  ((y mod 4 =? 0) && negb (y mod 100 =? 0)) || (y mod 400 =? 0).

Definition days_in_month (y m : Z) : Z :=
  if m =? 2 then (if is_leap y then 29 else 28)
  else if (m =? 4) || (m =? 6) || (m =? 9) || (m =? 11) then 30
  else 31.

(** How the argument parser names the type of an argument that is not a
    string. *)
Definition arg_type_name (v : PyVal) : string :=
  match v with
  | VNone => "None"
  | _ => py_type_name v
  end.

Definition strptime_date (v : PyVal) : result date :=
  match v with
  | VStr s =>
      match match_ymd s with
      | None =>
          Raise (Exn ValueError
            ("time data '" +:+ s +:+ "' does not match format '%Y-%m-%d'") None)
      | Some (y, m, d, rest) =>
          if negb (bool_decide (rest = EmptyString)) then
            Raise (Exn ValueError ("unconverted data remains: " +:+ rest) None)
          else if y <? 1 then
            Raise (Exn ValueError ("year " +:+ z2s y +:+ " is out of range") None)
          else if days_in_month y m <? d then
            Raise (Exn ValueError "day is out of range for month" None)
          else Ok (mkDate y m d)
      end
  | _ =>
      Raise (Exn TypeError
        ("strptime() argument 1 must be str, not " +:+ arg_type_name v) None)
  end.

(** ** The world: module globals, connections, the store, the services *)

Definition Vec := list Q.

(** A row of the [neron] table. *)
Record Note := mkNote {
  note_id : Z;
  note_timestamp : datetime;
  note_text : string;
  note_embedding : Vec
}.

(** [psycopg2.pool.ThreadedConnectionPool].  Connections are named by
    numbers.  [pool_idle] is the list [_pool] with its last element first
    (the end [append] and [pop] work on); [pool_used] holds the values of
    the dictionary [_used], one key per checked-out connection. *)
Record Pool := mkPool {
  minconn : Z;
  maxconn : Z;
  pool_closed : bool;
  pool_idle : list nat;
  pool_used : gset nat
}.

(** The statements the connector sends. *)
Inductive Query :=
| QSelect1
| QNotesByDay (target_date : date)
| QAllNotes
| QSearch (query_embedding : Vec) (top_k : PyVal).

(** What the connector does to its collaborators, in order. *)
Inductive Event :=
| EvGetConnection (conn : option nat)  (* a call of [get_connection] and the
                                          connection it gave, if any *)
| EvPutconn (conn : nat) (close : bool) (* [connection_pool.putconn] went through *)
| EvConnect (conn : nat)               (* a new connection was opened *)
| EvExecute (conn : nat) (q : Query) (err : option exn)
                                       (* [cursor.execute] and what it raised *)
| EvEmbed (text : PyVal)               (* [voyage_client.embed] *)
| EvCloseall.                          (* [connection_pool.closeall] went through *)

Record World := mkWorld {
  connection_pool : option Pool;        (* the global of [db_connector] *)
  voyage_client : option string;        (* the global client, by its API key *)
  conn_closed : gset nat;               (* connections on which [close()] ran *)
  next_conn : nat;                      (* name of the next new connection *)
  net_script : list (option exn);       (* outcome of each coming round trip
                                           to the store; none left: success *)
  voyage_embed : PyVal → result (list Vec);   (* the embedding service *)
  neron : list Note;                    (* the table *)
  vec_distance : Vec → Vec → Q;         (* the store's [<=>] operator *)
  trace : list Event
}.

Definition set_connection_pool (p : option Pool) (w : World) : World :=
  mkWorld p (voyage_client w) (conn_closed w) (next_conn w) (net_script w)
          (voyage_embed w) (neron w) (vec_distance w) (trace w).

Definition set_voyage_client (c : option string) (w : World) : World :=
  mkWorld (connection_pool w) c (conn_closed w) (next_conn w) (net_script w)
          (voyage_embed w) (neron w) (vec_distance w) (trace w).

Definition set_conn_closed (s : gset nat) (w : World) : World :=
  mkWorld (connection_pool w) (voyage_client w) s (next_conn w) (net_script w)
          (voyage_embed w) (neron w) (vec_distance w) (trace w).

Definition set_next_conn (n : nat) (w : World) : World :=
  mkWorld (connection_pool w) (voyage_client w) (conn_closed w) n (net_script w)
          (voyage_embed w) (neron w) (vec_distance w) (trace w).

Definition set_net_script (s : list (option exn)) (w : World) : World :=
  mkWorld (connection_pool w) (voyage_client w) (conn_closed w) (next_conn w) s
          (voyage_embed w) (neron w) (vec_distance w) (trace w).

Definition log_event (e : Event) (w : World) : World :=
  mkWorld (connection_pool w) (voyage_client w) (conn_closed w) (next_conn w)
          (net_script w) (voyage_embed w) (neron w) (vec_distance w) (trace w ++ [e]).

(** ** The monad of effectful Python code *)

Definition M (A : Type) : Type := World → result A * World.

Definition ret {A} (a : A) : M A := λ w, (Ok a, w).
Definition raise {A} (e : exn) : M A := λ w, (Raise e, w).
Definition bind {A B} (m : M A) (k : A → M B) : M B :=
  λ w, match m w with
       | (Ok a, w') => k a w'
       | (Raise e, w') => (Raise e, w')
       end.
Definition lift {A} (r : result A) : M A := λ w, (r, w).
Definition get_world : M World := λ w, (Ok w, w).
Definition modify (f : World → World) : M unit := λ w, (Ok tt, f w).
Definition emit (e : Event) : M unit := modify (log_event e).

(** [try: m  except Exception as e: h e] *)
Definition try_except {A} (m : M A) (h : exn → M A) : M A :=
  λ w, match m w with
       | (Ok a, w') => (Ok a, w')
       | (Raise e, w') => h e w'
       end.

(** [try: m  finally: fin]; an exception of [fin] replaces the outcome. *)
Definition try_finally {A} (m : M A) (fin : M unit) : M A :=
  λ w, match m w with
       | (r, w') =>
           match fin w' with
           | (Ok _, w'') => (r, w'')
           | (Raise e, w'') => (Raise e, w'')
           end
       end.

(** The outcome of a computation, reified: for code whose handler needs
    a local variable bound part of the way through the [try] body. *)
Definition reify {A} (m : M A) : M (result A) :=
  λ w, match m w with (r, w') => (Ok r, w') end.

Declare Scope py_scope.
Delimit Scope py_scope with py.
Notation "x <- m ;; k" := (bind m (λ x, k))
  (at level 100, m at next level, right associativity) : py_scope.
Notation "m ;;; k" := (bind m (λ _, k))
  (at level 100, right associativity) : py_scope.
Open Scope py_scope.

(** ** psycopg2: connections and the pool *)

(** One round trip to the store: the script says whether it goes through. *)
Definition round_trip : M unit :=
  λ w, match net_script w with
       | [] => (Ok tt, w)
       | None :: rest => (Ok tt, set_net_script rest w)
       | Some e :: rest => (Raise e, set_net_script rest w)
       end.

(** [psycopg2.connect(...)] *)
Definition connect : M nat :=
  round_trip ;;;
  w <- get_world ;;
  let conn := next_conn w in
  modify (set_next_conn (S conn)) ;;;
  emit (EvConnect conn) ;;;
  ret conn.

(** [conn.close()] *)
Definition conn_close (conn : nat) : M unit :=
  modify (λ w, set_conn_closed ({[conn]} ∪ conn_closed w) w).

(** *** The argument of [LIMIT]

    psycopg2 writes the argument into the statement as a literal, and the
    store brings the literal to [bigint].  [None] is written [NULL], which
    is no limit.  An integer has to fit [bigint] and must not be negative.
    A float is a numeric literal, rounded to the nearest integer with
    halves away from zero; not-a-number and the infinities do not fit.  A
    string is read as the text of a [bigint].  A boolean is refused by the
    store, and an object the library has no literal for by the library.
    An exception carries the primary line of the store's message. *)

Definition round_half_away (x : Q) : Z :=
  if Qle_bool 0 x then Qfloor (x + (1 # 2)) else Qceiling (x - (1 # 2)).

Definition pg_space (c : ascii) : bool :=
  let n := Z.of_nat (nat_of_ascii c) in (n =? 32) || (9 <=? n) && (n <=? 13).

Fixpoint skip_spaces (s : string) : string :=
  match s with
  | String c rest => if pg_space c then skip_spaces rest else s
  | EmptyString => s
  end.

Fixpoint read_digits (acc : option Z) (s : string) : option Z * string :=
  match s with
  | String c rest =>
      let d := Z.of_nat (nat_of_ascii c) - 48 in
      if (0 <=? d) && (d <=? 9)
      then read_digits (Some (10 * default 0 acc + d)) rest
      else (acc, s)
  | EmptyString => (acc, s)
  end.

(** The text of a [bigint]: blanks, a sign, digits, blanks. *)
Definition int8in (s : string) : option Z :=
  let s1 := skip_spaces s in
  let '(negative, s2) :=
    match s1 with
    | String c rest =>
        if Ascii.eqb c "-"%char then (true, rest)
        else if Ascii.eqb c "+"%char then (false, rest)
        else (false, s1)
    | EmptyString => (false, s1)
    end in
  match read_digits None s2 with
  | (Some n, rest) =>
      if bool_decide (skip_spaces rest = EmptyString)
      then Some (if negative : bool then - n else n)
      else None
  | (None, _) => None
  end.

Definition row_count (k : Z) : result unit :=
  if (k <? - 2 ^ 63) || (2 ^ 63 <=? k)
  then Raise (Exn DataError "bigint out of range" None)
  else if k <? 0
  then Raise (Exn DataError "LIMIT must not be negative" None)
  else Ok tt.

Definition check_limit (top_k : PyVal) : result unit :=
  match top_k with
  | VNone => Ok tt
  | VInt k => row_count k
  | VFloat (FNum x) _ => row_count (round_half_away x)
  | VFloat _ _ => Raise (Exn DataError "bigint out of range" None)
  | VStr s =>
      match int8in s with
      | Some k =>
          if (k <? - 2 ^ 63) || (2 ^ 63 <=? k)
          then Raise (Exn DataError
                        ("value " +:+ String (ascii_of_nat 34) s
                         +:+ String (ascii_of_nat 34) " is out of range for type bigint")
                        None)
          else row_count k
      | None =>
          Raise (Exn DataError
                   ("invalid input syntax for type bigint: "
                    +:+ String (ascii_of_nat 34) s +:+ String (ascii_of_nat 34) EmptyString)
                   None)
      end
  | VBool _ =>
      Raise (Exn ProgrammingError
               "argument of LIMIT must be type bigint, not type boolean" None)
  | VOther type_name _ =>
      Raise (Exn ProgrammingError ("can't adapt type '" +:+ type_name +:+ "'") None)
  end.

Definition check_query (q : Query) : result unit :=
  match q with
  | QSearch _ top_k => check_limit top_k
  | _ => Ok tt
  end.

(** [cursor = conn.cursor(); cursor.execute(q)]: [InterfaceError] on a closed
    connection, else one round trip, then the store's own checks. *)
Definition execute (conn : nat) (q : Query) : M unit :=
  try_except
    (w <- get_world ;;
     (if bool_decide (conn ∈ conn_closed w)
      then raise (Exn InterfaceError "connection already closed" None)
      else ret tt) ;;;
     round_trip ;;;
     lift (check_query q) ;;;
     emit (EvExecute conn q None))
    (λ e, emit (EvExecute conn q (Some e)) ;;; raise e).

Definition update_pool (p : Pool) : M unit := modify (set_connection_pool (Some p)).

Definition pool_is_closed : exn := Exn PoolError "connection pool is closed" None.

(** [pool.getconn()] *)
Definition getconn (p : Pool) : M nat :=
  if pool_closed p then raise pool_is_closed
  else match pool_idle p with
       | conn :: rest =>
           update_pool (mkPool (minconn p) (maxconn p) (pool_closed p) rest
                               ({[conn]} ∪ pool_used p)) ;;;
           ret conn
       | [] =>
           if Z.of_nat (size (pool_used p)) =? maxconn p
           then raise (Exn PoolError "connection pool exhausted" None)
           else
             conn <- connect ;;
             update_pool (mkPool (minconn p) (maxconn p) (pool_closed p) []
                                 ({[conn]} ∪ pool_used p)) ;;;
             ret conn
       end.

(** [pool.putconn(conn, close=close)].  A connection handed back for reuse
    has just answered a statement; the rollback that puts it back into an
    idle state is taken to succeed. *)
Definition putconn (p : Pool) (conn : nat) (close : bool) : M unit :=
  if pool_closed p then raise pool_is_closed
  else if negb (bool_decide (conn ∈ pool_used p))
  then raise (Exn PoolError "trying to put unkeyed connection" None)
  else
    w <- get_world ;;
    let keep := (Z.of_nat (length (pool_idle p)) <? minconn p) && negb close in
    let reusable := keep && negb (bool_decide (conn ∈ conn_closed w)) in
    (if keep then ret tt else conn_close conn) ;;;
    update_pool (mkPool (minconn p) (maxconn p) (pool_closed p)
                        (if reusable then conn :: pool_idle p else pool_idle p)
                        (pool_used p ∖ {[conn]})) ;;;
    emit (EvPutconn conn close).

(** [pool.closeall()] *)
Definition closeall (p : Pool) : M unit :=
  if pool_closed p then raise pool_is_closed
  else
    modify (λ w, set_conn_closed
                   (list_to_set (pool_idle p) ∪ pool_used p ∪ conn_closed w) w) ;;;
    update_pool (mkPool (minconn p) (maxconn p) true (pool_idle p) (pool_used p)) ;;;
    emit EvCloseall.

(** The constructor opens [minconn] connections into the idle list. *)
Fixpoint open_idle (n : nat) (acc : list nat) : M (list nat) :=
  match n with
  | O => ret acc
  | S n' => conn <- connect ;; open_idle n' (conn :: acc)
  end.

Definition ThreadedConnectionPool (minc maxc : Z) : M Pool :=
  conns <- open_idle (Z.to_nat minc) [] ;;
  ret (mkPool minc maxc false conns ∅).

(** ** The store's answers *)

Definition ts_le (a b : Note) : Prop := dt_leb (note_timestamp a) (note_timestamp b) = true.
Definition ts_ge (a b : Note) : Prop := ts_le b a.

Global Instance ts_le_dec a b : Decision (ts_le a b).
Proof. unfold ts_le. apply _. Defined.
Global Instance ts_ge_dec a b : Decision (ts_ge a b).
Proof. unfold ts_ge. apply _. Defined.

Definition on_day (target_date : date) (n : Note) : Prop :=
  dt_date (note_timestamp n) = target_date.

Global Instance on_day_dec d n : Decision (on_day d n).
Proof. unfold on_day. apply _. Defined.

Definition note_row (n : Note) : Z * datetime * string :=
  (note_id n, note_timestamp n, note_text n).

(** [SELECT id, timestamp, text FROM neron
     WHERE DATE(timestamp) = %s ORDER BY timestamp ASC] *)
Definition select_notes_by_day (target_date : date) (table : list Note)
  : list (Z * datetime * string) :=
  note_row <$> merge_sort ts_le (filter (on_day target_date) table).

(** [SELECT id, timestamp, text FROM neron ORDER BY timestamp DESC] *)
Definition select_all_notes (table : list Note) : list (Z * datetime * string) :=
  note_row <$> merge_sort ts_ge table.

Definition dist_le (dist : Vec → Vec → Q) (q : Vec) (a b : Note) : Prop :=
  Qle_bool (dist (note_embedding a) q) (dist (note_embedding b) q) = true.

Global Instance dist_le_dec dist q a b : Decision (dist_le dist q a b).
Proof. unfold dist_le. apply _. Defined.

(** The rows a [LIMIT] lets through, for an argument the store accepts. *)
Definition limit {A} (top_k : PyVal) (rows : list A) : list A :=
  match top_k with
  | VInt k => take (Z.to_nat k) rows
  | VFloat (FNum x) _ => take (Z.to_nat (round_half_away x)) rows
  | VStr s =>
      match int8in s with
      | Some k => take (Z.to_nat k) rows
      | None => rows
      end
  | _ => rows
  end.

(** [SELECT id, text, timestamp, 1 - (embedding <=> %s::vector) as similarity
     FROM neron ORDER BY embedding <=> %s::vector LIMIT %s] *)
Definition select_similar (dist : Vec → Vec → Q) (q : Vec) (top_k : PyVal)
    (table : list Note) : list (Z * string * datetime * Q) :=
  (λ n, (note_id n, note_text n, note_timestamp n, 1 - dist (note_embedding n) q)%Q)
    <$> limit top_k (merge_sort (dist_le dist q) table).

(** ** db_connector.py *)

Section db_connector.

Variable config : Config.

(** [voyageai.Client(api_key=...)]: the client refuses to start without a key. *)
Definition voyageai_Client (api_key : option string) : M string :=
  match api_key with
  | Some k =>
      if bool_decide (k = EmptyString)
      then raise (Exn (ServiceError "AuthenticationError") "No API key provided." None)
      else ret k
  | None => raise (Exn (ServiceError "AuthenticationError") "No API key provided." None)
  end.

Definition initialize_pool : M unit :=
  try_except
    (p <- ThreadedConnectionPool (DB_MIN_CONNECTIONS config) (DB_MAX_CONNECTIONS config) ;;
     modify (set_connection_pool (Some p)) ;;;
     client <- voyageai_Client (VOYAGE_API_KEY config) ;;
     modify (set_voyage_client (Some client)))
    (λ e, raise e).

Definition not_initialized : exn :=
  Exn RuntimeError "Connection pool not initialized. Call initialize_pool() first." None.

Definition get_connection : M nat :=
  r <- reify (w <- get_world ;;
              match connection_pool w with
              | None => raise not_initialized
              | Some p => getconn p
              end) ;;
  emit (EvGetConnection (match r with Ok conn => Some conn | Raise _ => None end)) ;;;
  lift r.

Definition return_connection (conn : nat) (close : bool) : M unit :=
  w <- get_world ;;
  match connection_pool w with
  | Some p => if close then putconn p conn true else putconn p conn false
  | None => ret tt
  end.

Definition retries_exhausted (max_retries : Z) (e : exn) : exn :=
  Exn RuntimeError
      ("Failed to get valid connection after " +:+ z2s max_retries +:+ " attempts")
      (Some e).

(** The [except] block of one attempt; [conn] is the local variable, still
    [None] when [get_connection] itself raised. *)
Definition attempt_failed (max_retries attempt : Z) (conn : option nat) (e : exn)
    (next : M nat) : M nat :=
  match conn with
  | Some c => try_except (return_connection c true) (λ _, ret tt)
  | None => ret tt
  end ;;;
  if attempt =? max_retries - 1
  then raise (retries_exhausted max_retries e)
  else next.

(** The body of [for attempt in range(max_retries)]. *)
Fixpoint get_valid_connection_loop (max_retries : Z) (attempts : list Z) : M nat :=
  match attempts with
  | [] => raise (Exn RuntimeError "Failed to get valid connection" None)
  | attempt :: rest =>
      let next := get_valid_connection_loop max_retries rest in
      r <- reify get_connection ;;
      match r with
      | Raise e => attempt_failed max_retries attempt None e next
      | Ok conn =>
          r' <- reify (execute conn QSelect1) ;;
          match r' with
          | Ok _ => ret conn
          | Raise e => attempt_failed max_retries attempt (Some conn) e next
          end
      end
  end.

Definition get_valid_connection (max_retries : Z) : M nat :=
  get_valid_connection_loop max_retries (py_range max_retries).

Definition close_pool : M unit :=
  w <- get_world ;;
  match connection_pool w with
  | Some p => closeall p
  | None => ret tt
  end.

(** The [try / except Exception / finally] skeleton shared by the three
    query functions.  [acquire] is the part of the [try] body up to and
    including [conn = get_valid_connection()]: while it runs [conn] is
    [None], so the [finally] block has nothing to return.  [query] is the
    rest of the body; [close_conn] is [True] exactly when it raised. *)
Definition try_with_conn {A B} (acquire : M (nat * B)) (query : nat → B → M A) : M A :=
  r <- reify acquire ;;
  match r with
  | Raise e => raise e
  | Ok (conn, b) =>
      r' <- reify (query conn b) ;;
      match r' with
      | Ok results => return_connection conn false ;;; ret results
      | Raise e => return_connection conn true ;;; raise e
      end
  end.

Definition get_notes_by_day (target_date : date) : M (list (Z * datetime * string)) :=
  try_with_conn
    (conn <- get_valid_connection 3 ;; ret (conn, tt))
    (λ conn _,
       execute conn (QNotesByDay target_date) ;;;
       w <- get_world ;;
       ret (select_notes_by_day target_date (neron w))).

Definition get_all_notes : M (list (Z * datetime * string)) :=
  try_with_conn
    (conn <- get_valid_connection 3 ;; ret (conn, tt))
    (λ conn _,
       execute conn QAllNotes ;;;
       w <- get_world ;;
       ret (select_all_notes (neron w))).

Definition dimension_mismatch (got : nat) : exn :=
  Exn ValueError
      ("Embedding dimension mismatch: expected " +:+ z2s (EMBEDDING_DIMENSION config)
       +:+ ", got " +:+ n2s got)
      None.

(** [voyage_client.embed([query_text], ...)] then [result.embeddings[0]] *)
Definition embed_query (query_text : PyVal) : M Vec :=
  w <- get_world ;;
  match voyage_client w with
  | None =>
      raise (Exn AttributeError "'NoneType' object has no attribute 'embed'" None)
  | Some _ =>
      emit (EvEmbed query_text) ;;;
      embeddings <- lift (voyage_embed w query_text) ;;
      match embeddings with
      | query_embedding :: _ => ret query_embedding
      | [] => raise (Exn IndexError "list index out of range" None)
      end
  end.

Definition search_notes (query_text : PyVal) (top_k : PyVal)
  : M (list (Z * string * datetime * Q)) :=
  try_with_conn
    (query_embedding <- embed_query query_text ;;
     (if bool_decide (Z.of_nat (length query_embedding) ≠ EMBEDDING_DIMENSION config)
      then raise (dimension_mismatch (length query_embedding))
      else ret tt) ;;;
     conn <- get_valid_connection 3 ;;
     ret (conn, query_embedding))
    (λ conn query_embedding,
       execute conn (QSearch query_embedding top_k) ;;;
       w <- get_world ;;
       ret (select_similar (vec_distance w) query_embedding top_k (neron w))).

End db_connector.

(** ** server.py *)

Record TextContent := mkTextContent { tc_type : string; tc_text : string }.

Definition nl : string := String (ascii_of_nat 10) EmptyString.
Definition dquote : string := String (ascii_of_nat 34) EmptyString.

(** [arguments[key]] *)
Definition getitem (arguments : gmap string PyVal) (key : string) : M PyVal :=
  match arguments !! key with
  | Some v => ret v
  | None => raise (Exn KeyError ("'" +:+ key +:+ "'") None)
  end.

(** [arguments.get(key, default)] *)
Definition dict_get (arguments : gmap string PyVal) (key : string) (default : PyVal) : PyVal :=
  match arguments !! key with
  | Some v => v
  | None => default
  end.

(** [v <= 0]; [bool] is a subclass of [int], and a float compares with an
    integer by value, not-a-number being below nothing. *)
Definition le_zero (v : PyVal) : result bool :=
  match v with
  | VInt k => Ok (k <=? 0)
  | VBool b => Ok (negb b)
  | VFloat FNan _ => Ok false
  | VFloat (FInf negative) _ => Ok negative
  | VFloat (FNum x) _ => Ok (Qle_bool x 0)
  | _ => Raise (Exn TypeError
                  ("'<=' not supported between instances of '" +:+ py_type_name v
                   +:+ "' and 'int'") None)
  end.

(** Rounding to the nearest integer, ties to even. *)
Definition round_half_even (x : Q) : Z :=
  let f := Qfloor x in
  let twice := (2 * (x - inject_Z f))%Q in
  match Qcompare twice 1 with
  | Lt => f
  | Gt => f + 1
  | Eq => if Z.even f then f else f + 1
  end.

(** The exponent [e] with [2^e <= |x| < 2^(e+1)], for [x] other than zero. *)
Definition binary_exponent (x : Q) : Z :=
  let a := Qabs x in
  let e := Z.log2 (Qnum a) - Z.log2 (Zpos (Qden a)) in
  if Qle_bool (2 ^ e) a then e else e - 1.

(** The double nearest to [x], ties to even: 53 bits from the leading one,
    no bit below [2^-1074], and an infinity from [2^1024] on. *)
Definition to_double (x : Q) : PyFloat :=
  if Qeq_bool x 0 then FNum 0
  else
    let ulp := (2 ^ Z.max (binary_exponent x - 52) (-1074))%Q in
    let y := (inject_Z (round_half_even (x / ulp)) * ulp)%Q in
    if Qle_bool (2 ^ 1024) (Qabs y)
    then FInf (if Qlt_le_dec x 0 then true else false)
    else FNum y.

(** [f"{similarity*100:.1f}"].  The similarity is the double the store
    sent; the product is rounded to a double, and the digits are those of
    that double, rounded to one decimal with ties to even. *)
Definition format_percent (similarity : Q) : string :=
  let product :=
    match to_double similarity with
    | FNum x => to_double (x * 100)
    | other => other
    end in
  (if Qlt_le_dec similarity 0 then "-" else EmptyString)
  +:+ match product with
      | FNum y =>
          let r := Z.abs (round_half_even (y * 10)%Q) in
          z2s (r / 10) +:+ "." +:+ z2s (r mod 10)
      | FInf _ => "inf"
      | FNan => "nan"
      end.

(** [for i, row in enumerate(rows, 1): result.append(...)] *)
Fixpoint enumerate_from {A} (i : Z) (rows : list A) : list (Z * A) :=
  match rows with
  | [] => []
  | r :: rest => (i, r) :: enumerate_from (i + 1) rest
  end.

Definition day_line (entry : Z * (Z * datetime * string)) : string :=
  let '(i, (_, timestamp, text)) := entry in
  nl +:+ z2s i +:+ ". [" +:+ strftime_HMS timestamp +:+ "] " +:+ text.

Definition all_line (entry : Z * (Z * datetime * string)) : string :=
  let '(i, (_, timestamp, text)) := entry in
  nl +:+ z2s i +:+ ". [" +:+ strftime_Ymd_HM timestamp +:+ "] " +:+ text.

Definition search_lines (entry : Z * (Z * string * datetime * Q)) : list string :=
  let '(i, (_, text, timestamp, similarity)) := entry in
  [nl +:+ z2s i +:+ ". [" +:+ format_percent similarity +:+ "%] " +:+ strftime_Ymd timestamp;
   "   " +:+ text].

(** [[TextContent(type="text", text=text)]] *)
Notation text_content text := [mkTextContent "text" text] (only parsing).

Section server.

Variable config : Config.

Definition tool_get_notes_per_day (arguments : gmap string PyVal) : M (list TextContent) :=
  day_str <- getitem arguments "day" ;;
  match strptime_date day_str with
  | Raise (Exn ValueError _ _) =>
      ret (text_content ("Invalid date format: " +:+ py_str day_str))
  | Raise e => raise e
  | Ok target_date =>
      notes <- get_notes_by_day target_date ;;
      match notes with
      | [] => ret (text_content ("No notes found for " +:+ py_str day_str))
      | _ =>
          let result :=
            ("Found " +:+ n2s (length notes) +:+ " note(s) for " +:+ py_str day_str
             +:+ ":" +:+ nl) :: (day_line <$> enumerate_from 1 notes) in
          ret (text_content (join nl result))
      end
  end.

Definition tool_get_all_notes : M (list TextContent) :=
  notes <- get_all_notes ;;
  match notes with
  | [] => ret (text_content "No notes found")
  | _ =>
      let result :=
        ("Found " +:+ n2s (length notes) +:+ " note(s):" +:+ nl)
          :: (all_line <$> enumerate_from 1 notes) in
      ret (text_content (join nl result))
  end.

Definition tool_search (arguments : gmap string PyVal) : M (list TextContent) :=
  query_text <- getitem arguments "text" ;;
  let top_k := dict_get arguments "top_k" (VInt 5) in
  nonpositive <- lift (le_zero top_k) ;;
  if (nonpositive : bool) then ret (text_content "top_k must be positive")
  else
    results <- search_notes config query_text top_k ;;
    match results with
    | [] => ret (text_content ("No results for: '" +:+ py_str query_text +:+ "'"))
    | _ =>
        let result :=
          ("Found " +:+ n2s (length results) +:+ " result(s) for '"
           +:+ py_str query_text +:+ "':" +:+ nl)
            :: concat (search_lines <$> enumerate_from 1 results) in
        ret (text_content (join nl result))
    end.

(** The body of the outer [try] of [call_tool]. *)
Definition call_tool_body (name : string) (arguments : gmap string PyVal)
  : M (list TextContent) :=
  if bool_decide (name = "get_notes_per_day") then tool_get_notes_per_day arguments
  else if bool_decide (name = "get_all_notes") then tool_get_all_notes
  else if bool_decide (name = "search") then tool_search arguments
  else ret (text_content ("Unknown tool: " +:+ name)).

Definition call_tool (name : string) (arguments : gmap string PyVal)
  : M (list TextContent) :=
  try_except (call_tool_body name arguments)
             (λ e, ret (text_content ("Error: " +:+ exn_str e))).

End server.

(** ** http_server.py *)

Record Request := mkRequest {
  req_method : string;
  req_path : string;
  req_headers : list (string * string);
  req_form : list (string * string)
}.

Record Response := mkResponse {
  resp_status : Z;
  resp_headers : list (string * string);
  resp_content : string
}.

Definition lower_ascii (c : ascii) : ascii :=
  let n := nat_of_ascii c in
  if ((65 <=? n) && (n <=? 90))%nat then ascii_of_nat (n + 32) else c.

Fixpoint lower (s : string) : string :=
  match s with
  | EmptyString => EmptyString
  | String c rest => String (lower_ascii c) (lower rest)
  end.

(** [request.headers.get(key)]: header names compare without case; the
    first header of that name wins. *)
Fixpoint headers_get (key : string) (headers : list (string * string)) : option string :=
  match headers with
  | [] => None
  | (name, value) :: rest =>
      if bool_decide (lower name = lower key) then Some value else headers_get key rest
  end.

(** [s[n:]] *)
Fixpoint slice_from (n : nat) (s : string) : string :=
  match n, s with
  | O, _ => s
  | S n', String _ rest => slice_from n' rest
  | S _, EmptyString => EmptyString
  end.

(** What [handle_mcp] does with a request when it returns: answer it
    itself, or hand it to [session_manager.handle_request], which runs the
    tool dispatch. *)
Inductive Handled :=
| Respond (r : Response)
| Forward (request : Request).

(** Pure code that can raise: the rest runs on what the first part returns. *)
Definition and_then {A B} (r : result A) (k : A → result B) : result B :=
  match r with
  | Ok a => k a
  | Raise e => Raise e
  end.

Section http_server.

Variable config : Config.

Definition verify_token (request : Request) : bool :=
  match headers_get "Authorization" (req_headers request) with
  | None => false
  | Some auth_header =>
      if bool_decide (auth_header = EmptyString) || negb (String.prefix "Bearer " auth_header)
      then false
      else
        let token := slice_from 7 auth_header in
        bool_decide (Some token = MCP_AUTH_TOKEN config)
  end.

(** The value of the [WWW-Authenticate] header, for a server domain. *)
Definition challenge (domain : string) : string :=
  "Bearer realm=" +:+ dquote +:+ "mcp" +:+ dquote +:+ ", resource_metadata_url="
  +:+ dquote +:+ "https://" +:+ domain +:+ "/.well-known/oauth-protected-resource"
  +:+ dquote.

(** The headers of the 401 response are built from [config.SERVER_DOMAIN]
    before the response is. *)
Definition handle_mcp (request : Request) : result Handled :=
  if negb (verify_token request)
  then and_then (SERVER_DOMAIN config) (λ domain,
         Ok (Respond (mkResponse 401 [("WWW-Authenticate", challenge domain)]
                                 "Unauthorized")))
  else Ok (Forward request).

End http_server.

(** ** fake_oauth_server.py *)

Inductive Json :=
| JNull
| JStr (s : string)
| JInt (z : Z)
| JArr (items : list Json)
| JObj (fields : list (string * Json)).

Definition json_opt_str (v : option string) : Json :=
  match v with
  | Some s => JStr s
  | None => JNull
  end.

(** [obj[key]] on a JSON object. *)
Fixpoint assoc (key : string) (fields : list (string * Json)) : option Json :=
  match fields with
  | [] => None
  | (k, v) :: rest => if bool_decide (k = key) then Some v else assoc key rest
  end.

Definition json_field (key : string) (j : Json) : option Json :=
  match j with
  | JObj fields => assoc key fields
  | _ => None
  end.

(** The handlers behind the routes of the handshake application. *)
Inductive Endpoint :=
| ep_oauth_metadata
| ep_resource_metadata
| ep_register_client
| ep_authorize
| ep_authorize_callback
| ep_token_exchange.

(** [Route(path, endpoint, methods=...)]: a route that lists [GET] answers
    [HEAD] as well. *)
Definition Route (path : string) (endpoint : Endpoint) (methods : list string)
  : string * Endpoint * list string :=
  (path, endpoint, if bool_decide ("GET" ∈ methods) then methods ++ ["HEAD"] else methods).

(** The [routes] of the Starlette application. *)
Definition routes : list (string * Endpoint * list string) :=
  [Route "/.well-known/oauth-authorization-server" ep_oauth_metadata ["GET"];
   Route "/.well-known/oauth-protected-resource" ep_resource_metadata ["GET"];
   Route "/register" ep_register_client ["POST"; "OPTIONS"];
   Route "/authorize" ep_authorize ["GET"];
   Route "/authorize/callback" ep_authorize_callback ["POST"];
   Route "/token" ep_token_exchange ["POST"; "OPTIONS"]].

(** The first route whose path and methods match. *)
Fixpoint route_in (table : list (string * Endpoint * list string))
    (method path : string) : option Endpoint :=
  match table with
  | [] => None
  | (p, ep, methods) :: rest =>
      if bool_decide (p = path) && bool_decide (method ∈ methods)
      then Some ep
      else route_in rest method path
  end.

Definition route (request : Request) : option Endpoint :=
  route_in routes (req_method request) (req_path request).

Section fake_oauth_server.

Variable config : Config.

Definition FAKE_TOKEN : option string := MCP_AUTH_TOKEN config.

Definition resource_metadata (request : Request) : result Json :=
  and_then (SERVER_DOMAIN config) (λ domain,
    Ok (JObj [("resource", JStr ("https://" +:+ domain));
              ("authorization_servers", JArr [JStr ("https://" +:+ domain)])])).

(** The form (and with it the [code]) is read for the log line only. *)
Definition token_exchange (request : Request) : Json :=
  let form := req_form request in
  JObj [("access_token", json_opt_str FAKE_TOKEN);
        ("token_type", JStr "Bearer");
        ("expires_in", JInt 315360000);
        ("scope", JStr "user")].

End fake_oauth_server.

(** ** Reading traces and worlds *)

(** The events a run added to the trace. *)
Definition added (w w' : World) (evs : list Event) : Prop := trace w' = trace w ++ evs.

(** How many times [get_connection] was called. *)
Fixpoint acquisitions (evs : list Event) : nat :=
  match evs with
  | [] => 0
  | EvGetConnection _ :: rest => S (acquisitions rest)
  | _ :: rest => acquisitions rest
  end.

(** The connections checked out and not handed back, after the events. *)
Fixpoint held (evs : list Event) (out : gset nat) : gset nat :=
  match evs with
  | [] => out
  | EvGetConnection (Some conn) :: rest => held rest ({[conn]} ∪ out)
  | EvPutconn conn _ :: rest => held rest (out ∖ {[conn]})
  | _ :: rest => held rest out
  end.

(** Every probe that failed is followed at once by [putconn(conn, close=True)]. *)
Fixpoint failed_probes_closed (evs : list Event) : Prop :=
  match evs with
  | [] => True
  | EvExecute conn QSelect1 (Some _) :: rest =>
      match rest with
      | EvPutconn conn' true :: _ => conn' = conn
      | _ => False
      end ∧ failed_probes_closed rest
  | _ :: rest => failed_probes_closed rest
  end.

(** Events that reach a collaborator over the network. *)
Definition is_network (e : Event) : bool :=
  match e with
  | EvConnect _ | EvExecute _ _ _ | EvEmbed _ => true
  | _ => false
  end.

(** The connections the pool counts as checked out. *)
Definition used_of (w : World) : gset nat :=
  match connection_pool w with
  | Some p => pool_used p
  | None => ∅
  end.

(** The store and the services are as they were. *)
Definition same_store (w w' : World) : Prop :=
  neron w' = neron w ∧ vec_distance w' = vec_distance w ∧
  voyage_embed w' = voyage_embed w ∧ voyage_client w' = voyage_client w.

(** What a reified outcome raised, if anything. *)
Definition raised {A} (r : result A) : option exn :=
  match r with
  | Ok _ => None
  | Raise e => Some e
  end.

(** What one run of [get_valid_connection] with a budget of attempts
    leaves behind: [evs] are the events it added. *)
Record acquired (budget : nat) (w : World) (r : result nat) (w' : World)
    (evs : list Event) : Prop := mkAcquired {
  acq_trace : trace w' = trace w ++ evs;
  acq_store : same_store w w';
  acq_closed_mono : conn_closed w ⊆ conn_closed w';
  acq_bound : (acquisitions evs ≤ budget)%nat;
  acq_probes : failed_probes_closed evs;
  acq_failed_closed : ∀ c q e, EvExecute c q (Some e) ∈ evs → c ∈ conn_closed w';
  acq_only_probes : ∀ c q e, EvExecute c q e ∈ evs → q = QSelect1;
  acq_no_embed : ∀ t, EvEmbed t ∉ evs;
  acq_used :
    used_of w' ⊆ match r with Ok c => {[c]} | Raise _ => ∅ end ∪ used_of w;
  acq_held :
    ∀ s, held evs s ⊆ match r with Ok c => {[c]} | Raise _ => ∅ end ∪ s;
  acq_ok :
    ∀ c, r = Ok c →
         (∃ p', connection_pool w' = Some p' ∧ pool_closed p' = false ∧ c ∈ pool_used p')
         ∧ (c ∉ conn_closed w')
         ∧ last evs = Some (EvExecute c QSelect1 None);
  acq_raise :
    ∀ e, r = Raise e → exn_class e = RuntimeError ∧ acquisitions evs = budget
}.

(** A computation hands back every connection it checks out: over the
    events it adds, nothing stays held and the pool counts no more
    connections as checked out than before; and when a statement other
    than the probe fails on a connection, that very error is the outcome,
    the connection has been closed, and handing it back with [close=True]
    is the last thing that happened. *)
Definition releases {A} (m : M A) : Prop :=
  ∀ w, ∃ evs,
    added w (m w).2 evs ∧
    held evs ∅ = ∅ ∧
    used_of (m w).2 ⊆ used_of w ∧
    ∀ c q e, EvExecute c q (Some e) ∈ evs → q ≠ QSelect1 →
             (m w).1 = Raise e ∧ c ∈ conn_closed (m w).2 ∧
             last evs = Some (EvPutconn c true).

(** Rows of the note queries, compared by their timestamp column. *)
Definition row_ts_le (a b : Z * datetime * string) : Prop := dt_leb a.1.2 b.1.2 = true.

(** A world in which a connection can be had and the store answers: the
    pool is open, no failure is scheduled, and either the next idle
    connection is open or there is room for a new one. *)
Definition healthy (w : World) : Prop :=
  ∃ p, connection_pool w = Some p ∧ pool_closed p = false ∧ net_script w = [] ∧
       match pool_idle p with
       | conn :: _ => conn ∉ conn_closed w
       | [] => Z.of_nat (size (pool_used p)) ≠ maxconn p ∧ next_conn w ∉ conn_closed w
       end.

(** ** A configuration and worlds to run the code on *)

Definition example_config : Config :=
  mkConfig "neron-mcp" (Some "s3cret-token")
           (Some "voyage-key") "voyage-3-large" 3
           "localhost" "5432" "postgres" "neron_bot" (Some "pw") 2 10.

Definition example_notes : list Note :=
  [mkNote 1 (mkDatetime (mkDate 2024 1 15) 18 30 0 0) "evening walk" [1; 0; 0]%Q;
   mkNote 2 (mkDatetime (mkDate 2024 1 16) 7 5 9 0) "dentist" [0; 1; 0]%Q;
   mkNote 3 (mkDatetime (mkDate 2024 1 15) 9 0 0 0) "meeting notes" [0; 0; 1]%Q].

(** A stand-in for the store's distance: half the squared difference. *)
Fixpoint example_distance (a b : Vec) : Q :=
  match a, b with
  | x :: a', y :: b' => ((x - y) * (x - y) / 2 + example_distance a' b')%Q
  | _, _ => 0%Q
  end.

Definition example_embed (text : PyVal) : result (list Vec) :=
  match text with
  | VStr "short" => Ok [[1; 0]%Q]
  | VStr _ => Ok [[0; 0; 1]%Q]
  | _ => Raise (Exn (ServiceError "InvalidRequestError") "input must be text" None)
  end.

(** The process before [initialize_pool] ran. *)
Definition world_start (script : list (option exn)) : World :=
  mkWorld None None ∅ 0 script example_embed example_notes example_distance [].

(** The process after [initialize_pool] ran against a store that is up. *)
Definition world_ready : World := (initialize_pool example_config (world_start [])).2.

(** The full-width digit five, U+FF15, in UTF-8. *)
Definition fullwidth_five : string :=
  String (ascii_of_nat 239) (String (ascii_of_nat 188) (String (ascii_of_nat 149) EmptyString)).

Definition connection_lost : exn :=
  Exn OperationalError "server closed the connection unexpectedly" None.


(** ** server.py: the advertised tools *)

Record Tool := mkTool {
  tool_name : string;
  tool_description : string;
  tool_properties : list (string * string);   (* property name, JSON type *)
  tool_required : list string
}.

Definition list_tools : list Tool :=
  [mkTool "get_notes_per_day" "Retrieve all notes for a specific day"
          [("day", "string")] ["day"];
   mkTool "get_all_notes" "Retrieve all notes from the database" [] [];
   mkTool "search" "Semantic search using embeddings"
          [("text", "string"); ("top_k", "integer")] ["text"]].

(** ** fake_oauth_server.py: the remaining endpoints *)

(** *** [urllib.parse]: quoting

    Strings stand for their UTF-8 bytes.  [quote] keeps letters, digits and
    [_.-~] and the characters of [safe], and writes any other byte as [%XX]
    with upper-case digits. *)

Definition is_alnum (c : ascii) : bool :=
  let n := nat_of_ascii c in
  ((48 <=? n) && (n <=? 57) || (65 <=? n) && (n <=? 90) || (97 <=? n) && (n <=? 122))%nat.

Fixpoint mem_char (c : ascii) (s : string) : bool :=
  match s with
  | EmptyString => false
  | String d rest => Ascii.eqb c d || mem_char c rest
  end.

Definition always_safe (c : ascii) : bool := is_alnum c || mem_char c "_.-~".

Definition hex_digit (n : nat) : ascii :=
  if (n <? 10)%nat then ascii_of_nat (48 + n) else ascii_of_nat (55 + n).

Definition percent (c : ascii) : string :=
  let n := nat_of_ascii c in
  String "%" (String (hex_digit (n / 16)) (String (hex_digit (n mod 16)) EmptyString)).

Fixpoint quote (safe : string) (s : string) : string :=
  match s with
  | EmptyString => EmptyString
  | String c rest =>
      (if always_safe c || mem_char c safe then String c EmptyString else percent c)
      +:+ quote safe rest
  end.

(** [s.replace(a, b)] for single characters *)
Fixpoint replace_char (a b : ascii) (s : string) : string :=
  match s with
  | EmptyString => EmptyString
  | String c rest => String (if Ascii.eqb c a then b else c) (replace_char a b rest)
  end.

(** [quote_plus(s)]: with a space in [s], the space is quoted as safe and
    then replaced by a plus sign. *)
Definition quote_plus (s : string) : string :=
  if mem_char " " s then replace_char " " "+" (quote " " s) else quote EmptyString s.

(** What [quote_plus] writes for one byte. *)
Definition quote_plus_char (c : ascii) : string :=
  if Ascii.eqb c " " then "+"
  else if always_safe c then String c EmptyString else percent c.

(** One item of [urlencode]. *)
Definition encode_pair (kv : string * string) : string :=
  quote_plus kv.1 +:+ "=" +:+ quote_plus kv.2.

(** [urlencode(params)] over the items of a dictionary of strings *)
Definition urlencode (params : list (string * string)) : string :=
  join "&" (encode_pair <$> params).

(** Every character of [s] is one that [quote] keeps. *)
Fixpoint all_safe (safe : string) (s : string) : bool :=
  match s with
  | EmptyString => true
  | String c rest => (always_safe c || mem_char c safe) && all_safe safe rest
  end.

(** *** [urllib.parse]: unquoting *)

Definition hex_value (c : ascii) : option nat :=
  let n := nat_of_ascii c in
  if ((48 <=? n) && (n <=? 57))%nat then Some (n - 48)%nat
  else if ((65 <=? n) && (n <=? 70))%nat then Some (n - 55)%nat
  else if ((97 <=? n) && (n <=? 102))%nat then Some (n - 87)%nat
  else None.

(** [unquote(s)]: a percent sign followed by two hexadecimal digits is the
    byte they name; any other percent sign stays. *)
Fixpoint unquote (s : string) : string :=
  match s with
  | EmptyString => EmptyString
  | String c rest =>
      if Ascii.eqb c "%" then
        match rest with
        | String a (String b rest') =>
            match hex_value a, hex_value b with
            | Some x, Some y => String (ascii_of_nat (16 * x + y)) (unquote rest')
            | _, _ => String c (unquote rest)
            end
        | _ => String c (unquote rest)
        end
      else String c (unquote rest)
  end.

(** [s.split(sep)] for a one-character separator *)
Fixpoint split_on (sep : ascii) (s : string) : list string :=
  match s with
  | EmptyString => [EmptyString]
  | String c rest =>
      if Ascii.eqb c sep then EmptyString :: split_on sep rest
      else match split_on sep rest with
           | piece :: pieces => String c piece :: pieces
           | [] => [String c EmptyString]
           end
  end.

(** [s.split(sep, 1)]: the part before the first separator and, if there is
    one, the part after it. *)
Fixpoint split_once (sep : ascii) (s : string) : string * option string :=
  match s with
  | EmptyString => (EmptyString, None)
  | String c rest =>
      if Ascii.eqb c sep then (EmptyString, Some rest)
      else let '(before, after) := split_once sep rest in (String c before, after)
  end.

(** [unquote(s.replace('+', ' '))] *)
Definition unquote_plus (s : string) : string := unquote (replace_char "+" " " s).

(** One [name=value] piece of [parse_qsl], with blank values not kept. *)
Definition parse_pair (name_value : string) : option (string * string) :=
  if bool_decide (name_value = EmptyString) then None
  else match split_once "=" name_value with
       | (_, None) => None
       | (name, Some value) =>
           if bool_decide (value = EmptyString) then None
           else Some (unquote_plus name, unquote_plus value)
       end.

(** [parse_qsl(qs)] *)
Definition parse_qsl (qs : string) : list (string * string) :=
  omap parse_pair (split_on "&" qs).

(** [dict(pairs).get(key)]: the last pair of that name wins. *)
Fixpoint dict_lookup (key : string) (pairs : list (string * string)) : option string :=
  match pairs with
  | [] => None
  | (k, v) :: rest =>
      match dict_lookup key rest with
      | Some v' => Some v'
      | None => if bool_decide (k = key) then Some v else None
      end
  end.

(** [f"{v}"] on an [Optional[str]] *)
Definition opt_str (v : option string) : string :=
  match v with
  | Some s => s
  | None => "None"
  end.

Section fake_oauth_server_more.

Variable config : Config.

(** Each of the four f-strings reads [config.SERVER_DOMAIN]; the first
    one is where the lookup raises. *)
Definition oauth_metadata (request : Request) : result Json :=
  and_then (SERVER_DOMAIN config) (λ domain,
    Ok (JObj [("issuer", JStr ("https://" +:+ domain));
              ("authorization_endpoint", JStr ("https://" +:+ domain +:+ "/authorize"));
              ("token_endpoint", JStr ("https://" +:+ domain +:+ "/token"));
              ("registration_endpoint", JStr ("https://" +:+ domain +:+ "/register"));
              ("response_types_supported", JArr [JStr "code"]);
              ("grant_types_supported", JArr [JStr "authorization_code"]);
              ("token_endpoint_auth_methods_supported", JArr [JStr "none"]);
              ("code_challenge_methods_supported", JArr [JStr "S256"])])).

End fake_oauth_server_more.

Definition fake_code : string := "fake_auth_code_always_same".

(** The characters Starlette's [RedirectResponse] leaves unquoted in the
    [location] header, besides the always safe ones. *)
Definition redirect_safe : string :=
  ":/%#?=@[]!$&'()*+,;".

(** [authorize_callback], on the [state_params] field of the posted form. *)
Definition authorize_callback (state_params : string) : Response :=
  let params := parse_qsl state_params in
  let redirect_uri := dict_lookup "redirect_uri" params in
  let state := dict_lookup "state" params in
  let url := opt_str redirect_uri +:+ "?code=" +:+ fake_code +:+ "&state=" +:+ opt_str state in
  mkResponse 303 [("location", quote redirect_safe url)] EmptyString.

(** ** Rows of the search, compared by their similarity column *)

Definition similar_row (dist : Vec → Vec → Q) (q : Vec) (n : Note)
  : Z * string * datetime * Q :=
  (note_id n, note_text n, note_timestamp n, (1 - dist (note_embedding n) q)%Q).

Definition sim_ge (a b : Z * string * datetime * Q) : Prop := (b.2 <= a.2)%Q.

(** ** The pool's bookkeeping *)

(** The pool [p] of world [w] is consistent: no connection is idle twice,
    none is both idle and checked out, every connection the pool holds was
    opened by this process, every connection opened is idle, checked out or
    closed, and idle plus checked-out connections are at most [maxconn]. *)
Record pool_wf (w : World) (p : Pool) : Prop := mkPoolWf {
  wf_nodup : NoDup (pool_idle p);
  wf_disjoint : ∀ c, c ∈ pool_idle p → c ∉ pool_used p;
  wf_known : ∀ c, c ∈ pool_idle p ∨ c ∈ pool_used p → (c < next_conn w)%nat;
  wf_accounted :
    ∀ c, (c < next_conn w)%nat → c ∈ pool_idle p ∨ c ∈ pool_used p ∨ c ∈ conn_closed w;
  wf_bound : Z.of_nat (length (pool_idle p) + size (pool_used p)) ≤ maxconn p
}.

(** The process is serving: the pool exists, is open and consistent. *)
Definition serving (w : World) : Prop :=
  ∃ p, connection_pool w = Some p ∧ pool_closed p = false ∧ pool_wf w p.

(** No connection is open that the process does not know of, and there is
    no pool yet. *)
Definition fresh_process (w : World) : Prop :=
  connection_pool w = None ∧ ∀ c, (c < next_conn w)%nat → c ∈ conn_closed w.

(** A computation keeps a property of the world, whatever its outcome. *)
Definition preserves (I : World → Prop) {A} (m : M A) : Prop :=
  ∀ w, I w → I (m w).2.

(** ** http_server.py: the lifespan *)

(** The tool calls served between startup and shutdown, one after the
    other; each is answered, none can raise. *)
Fixpoint serve (config : Config) (calls : list (string * gmap string PyVal)) : M unit :=
  match calls with
  | [] => ret tt
  | (name, arguments) :: rest =>
      call_tool config name arguments ;;; serve config rest
  end.

(** [lifespan]: [initialize_pool] before the application starts serving,
    [close_pool] after it stopped. *)
Definition lifespan (config : Config) (calls : list (string * gmap string PyVal)) : M unit :=
  initialize_pool config ;;;
  serve config calls ;;;
  close_pool.

(** * Properties *)

(** ** The library models on sample inputs *)

(** [\d] reads any decimal digit, the classes read ASCII digits only. *)
Example strptime_unicode_digit :
  strptime_date (VStr ("2024-01-1" +:+ fullwidth_five)) = Ok (mkDate 2024 1 15)
  ∧ strptime_date (VStr ("202" +:+ fullwidth_five +:+ "-1- 5")) = Ok (mkDate 2025 1 5)
  ∧ exn_class <$> raised (strptime_date (VStr ("2024-0" +:+ fullwidth_five +:+ "-15")))
    = Some ValueError
  ∧ raised (strptime_date (VStr ("2024-01-3" +:+ fullwidth_five)))
    = Some (Exn ValueError ("unconverted data remains: " +:+ fullwidth_five) None).
Proof. repeat split; vm_compute; reflexivity. Qed.

Example strptime_not_a_string :
  raised (strptime_date VNone)
  = Some (Exn TypeError "strptime() argument 1 must be str, not None" None)
  ∧ raised (strptime_date (VInt 20240115))
    = Some (Exn TypeError "strptime() argument 1 must be str, not int" None).
Proof. split; reflexivity. Qed.

Example strftime_small_year : strftime_date (mkDate 999 1 2) = "999-01-02".
Proof. reflexivity. Qed.

(** The percentage is computed in doubles: [0.0005 * 100] lies above
    [0.05], and [0.0015 * 100] below [0.15]. *)
Example format_percent_in_doubles :
  format_percent 0.0005 = "0.1" ∧ format_percent 0.0015 = "0.1"
  ∧ format_percent 0.0025 = "0.2" ∧ format_percent 0.12345 = "12.3"
  ∧ format_percent (-0.0004) = "-0.0" ∧ format_percent 1 = "100.0".
Proof. repeat split; vm_compute; reflexivity. Qed.

Example limit_argument :
  check_limit (VInt (2 ^ 63 - 1)) = Ok tt
  ∧ check_limit (VInt (2 ^ 63)) = Raise (Exn DataError "bigint out of range" None)
  ∧ check_limit (VFloat (FNum 1.5) "1.5") = Ok tt
  ∧ limit (VFloat (FNum 1.5) "1.5") [1; 2; 3] = [1; 2]
  ∧ le_zero (VFloat (FNum (-1.5)) "-1.5") = Ok true
  ∧ le_zero (VFloat FNan "nan") = Ok false.
Proof. repeat split; vm_compute; reflexivity. Qed.

Example head_is_routed :
  route_in routes "HEAD" "/authorize" = Some ep_authorize
  ∧ route_in routes "HEAD" "/token" = None.
Proof. split; reflexivity. Qed.

(** ** Strings *)

Lemma append_cons (c : ascii) (p t : string) : String c p +:+ t = String c (p +:+ t).
Proof. reflexivity. Qed.

Lemma append_nil (t : string) : EmptyString +:+ t = t.
Proof. reflexivity. Qed.

Lemma append_assoc (a b c : string) : (a +:+ b) +:+ c = a +:+ (b +:+ c).
Proof.
  induction a as [|x a IH]; [reflexivity|].
  rewrite !append_cons. by rewrite IH.
Qed.

Lemma prefix_split (p s : string) :
  String.prefix p s = true → s = p +:+ slice_from (String.length p) s.
Proof.
  revert s. induction p as [|c p IH]; intros s H.
  - reflexivity.
  - destruct s as [|c' s]; simpl in H; [discriminate|].
    destruct (Ascii.ascii_dec c c') as [->|]; [|discriminate].
    rewrite append_cons. simpl. f_equal. apply IH, H.
Qed.

Lemma prefix_app (p t : string) : String.prefix p (p +:+ t) = true.
Proof.
  induction p as [|c p IH].
  - destruct t; reflexivity.
  - rewrite append_cons. simpl.
    destruct (Ascii.ascii_dec c c); [assumption|congruence].
Qed.

Lemma slice_from_app (p t : string) : slice_from (String.length p) (p +:+ t) = t.
Proof.
  induction p as [|c p IH]; [destruct t; reflexivity|].
  rewrite append_cons. simpl. assumption.
Qed.

(** ** The bearer gate *)

Section bearer_gate.

Variable config : Config.

Lemma verify_token_accepts (request : Request) (token : string) :
  MCP_AUTH_TOKEN config = Some token →
  headers_get "Authorization" (req_headers request) = Some ("Bearer " +:+ token) →
  verify_token config request = true.
Proof.
  intros Hcfg Hhdr. unfold verify_token. rewrite Hhdr.
  rewrite (prefix_app "Bearer " token).
  change 7%nat with (String.length "Bearer ").
  rewrite slice_from_app, Hcfg.
  rewrite bool_decide_eq_false_2 by discriminate.
  simpl. by apply bool_decide_eq_true_2.
Qed.

Lemma verify_token_sound (request : Request) :
  verify_token config request = true →
  ∃ token, MCP_AUTH_TOKEN config = Some token ∧
           headers_get "Authorization" (req_headers request) = Some ("Bearer " +:+ token).
Proof.
  unfold verify_token.
  destruct (headers_get "Authorization" (req_headers request)) as [h|]; [|discriminate].
  destruct (bool_decide (h = EmptyString)); [discriminate|].
  destruct (String.prefix "Bearer " h) eqn:Hp; [|discriminate].
  simpl. intros Heq%bool_decide_eq_true_1.
  exists (slice_from 7 h). split; [done|].
  f_equal. apply (prefix_split "Bearer " h Hp).
Qed.

End bearer_gate.

(** C1.  The gate accepts exactly the requests whose [Authorization] header
    is the literal [Bearer ] followed by the configured credential, compared
    as strings with nothing trimmed, and an accepted request is forwarded.
    A request the gate turns away is never forwarded, but it is not answered
    with the 401 challenge either: the challenge header is built from
    [config.SERVER_DOMAIN], a name [config.py] does not define, and
    [handle_mcp] raises [AttributeError] in place of the response. *)
Theorem bearer_gate_rejection_raises (config : Config) (request : Request) :
  (verify_token config request = true ↔
     ∃ token, MCP_AUTH_TOKEN config = Some token ∧
              headers_get "Authorization" (req_headers request)
              = Some ("Bearer " +:+ token))
  ∧ (if verify_token config request
     then handle_mcp config request = Ok (Forward request)
     else handle_mcp config request
          = Raise (Exn AttributeError
                       "module 'config' has no attribute 'SERVER_DOMAIN'" None)
          ∧ (∀ r, handle_mcp config request ≠ Ok (Respond r))
          ∧ (∀ forwarded, handle_mcp config request ≠ Ok (Forward forwarded))).
Proof.
  split.
  - split.
    + apply verify_token_sound.
    + intros (token & Hcfg & Hhdr). by eapply verify_token_accepts.
  - unfold handle_mcp. destruct (verify_token config request); simpl; [done|].
    split; [reflexivity|]. split; intros ?; discriminate.
Qed.

(** The gate at a request that carries no credential. *)
Lemma bearer_gate_rejection_raises_witness :
  verify_token example_config (mkRequest "POST" "/" [] []) = false
  ∧ handle_mcp example_config (mkRequest "POST" "/" [] [])
    = Raise (Exn AttributeError "module 'config' has no attribute 'SERVER_DOMAIN'" None).
Proof.
  split; [reflexivity|].
  apply (bearer_gate_rejection_raises example_config (mkRequest "POST" "/" [] [])).
Defined.

(** ** The token endpoint *)

(** C8.  Every [POST /token] is routed to [token_exchange], and whatever the
    form carries (any [code], or none) the answer is the same document: its
    [access_token] is the configured credential, as a string ([null] when
    none is configured), and its [expires_in] is the fixed expiry. *)
Theorem token_exchange_fixed (config : Config)
    (headers form headers' form' : list (string * string)) :
  route (mkRequest "POST" "/token" headers form) = Some ep_token_exchange
  ∧ token_exchange config (mkRequest "POST" "/token" headers form)
    = token_exchange config (mkRequest "POST" "/token" headers' form')
  ∧ (∀ token, MCP_AUTH_TOKEN config = Some token →
              token_exchange config (mkRequest "POST" "/token" headers form)
              = JObj [("access_token", JStr token); ("token_type", JStr "Bearer");
                      ("expires_in", JInt 315360000); ("scope", JStr "user")]
              ∧ json_field "access_token"
                  (token_exchange config (mkRequest "POST" "/token" headers form))
                = Some (JStr token))
  ∧ (MCP_AUTH_TOKEN config = None →
     json_field "access_token"
       (token_exchange config (mkRequest "POST" "/token" headers form))
     = Some JNull)
  ∧ json_field "expires_in" (token_exchange config (mkRequest "POST" "/token" headers form))
    = Some (JInt 315360000).
Proof.
  split; [reflexivity|]. split; [reflexivity|].
  split; [|split; [|reflexivity]].
  - intros token Hcfg. unfold token_exchange, FAKE_TOKEN. rewrite Hcfg. by split.
  - intros Hcfg. cbn. unfold FAKE_TOKEN. by rewrite Hcfg.
Qed.

(** Two exchanges with different codes, against the example configuration. *)
Lemma token_exchange_fixed_witness :
  json_field "access_token"
    (token_exchange example_config
       (mkRequest "POST" "/token" [] [("code", "fake_auth_code_always_same")]))
  = Some (JStr "s3cret-token")
  ∧ token_exchange example_config
      (mkRequest "POST" "/token" [] [("code", "fake_auth_code_always_same")])
    = token_exchange example_config (mkRequest "POST" "/token" [] [("code", "%%%")]).
Proof.
  destruct (token_exchange_fixed example_config
              [] [("code", "fake_auth_code_always_same")] [] [("code", "%%%")])
    as (_ & Hsame & Htoken & _).
  split; [apply (Htoken "s3cret-token" eq_refl) | exact Hsame].
Defined.

(** ** The pool and the connections, step by step *)

Ltac run :=
  unfold bind, ret, raise, lift, get_world, modify, emit, reify, try_except,
         update_pool in *;
  simpl in *.

Ltac inverts H := inversion H; subst; clear H.

Lemma same_store_refl w : same_store w w.
Proof. by unfold same_store. Qed.

Lemma same_store_trans w1 w2 w3 :
  same_store w1 w2 → same_store w2 w3 → same_store w1 w3.
Proof. unfold same_store. intros (?&?&?&?) (?&?&?&?). repeat split; congruence. Qed.

#[local] Hint Resolve same_store_refl : core.

Lemma execute_spec conn q w r w' :
  execute conn q w = (r, w') →
  same_store w w' ∧ connection_pool w' = connection_pool w ∧
  conn_closed w' = conn_closed w ∧
  trace w' = trace w ++ [EvExecute conn q (raised r)] ∧
  (raised r = None → conn ∉ conn_closed w).
Proof.
  unfold execute. run.
  destruct (bool_decide (conn ∈ conn_closed w)) eqn:Hc; simpl.
  - intros H; inverts H. repeat split; done.
  - apply bool_decide_eq_false_1 in Hc.
    unfold round_trip. destruct (net_script w) as [|[e|] rest]; simpl;
      try (destruct (check_query q); simpl); intros H; inverts H;
      repeat split; done.
Qed.

Lemma execute_ok conn q w :
  conn ∉ conn_closed w → net_script w = [] → check_query q = Ok tt →
  execute conn q w = (Ok tt, log_event (EvExecute conn q None) w).
Proof.
  intros Hc Hs Hq. unfold execute. run.
  rewrite bool_decide_eq_false_2 by done. simpl.
  unfold round_trip. rewrite Hs. simpl. by rewrite Hq.
Qed.

Lemma connect_spec w r w' :
  connect w = (r, w') →
  same_store w w' ∧ connection_pool w' = connection_pool w ∧
  conn_closed w' = conn_closed w ∧
  match r with
  | Ok conn => conn = next_conn w ∧ trace w' = trace w ++ [EvConnect conn]
  | Raise _ => trace w' = trace w
  end.
Proof.
  unfold connect, round_trip. run.
  destruct (net_script w) as [|[e|] rest]; simpl; intros H; inverts H;
    repeat split; done.
Qed.

(** [getconn] either fails and leaves the pool alone, or hands out a
    connection that the open pool now counts as checked out. *)
Lemma getconn_spec p w r w' :
  connection_pool w = Some p →
  getconn p w = (r, w') →
  same_store w w' ∧ conn_closed w' = conn_closed w ∧
  match r with
  | Raise _ => trace w' = trace w ∧ connection_pool w' = Some p
  | Ok conn =>
      ∃ p' pre, connection_pool w' = Some p' ∧ pool_closed p' = false ∧
                pool_used p' = {[conn]} ∪ pool_used p ∧
                trace w' = trace w ++ pre ∧ (pre = [] ∨ pre = [EvConnect conn])
  end.
Proof.
  intros Hp. unfold getconn.
  destruct (pool_closed p) eqn:Hcl.
  { run. intros H; inverts H. done. }
  destruct (pool_idle p) as [|conn rest].
  - destruct (Z.of_nat (size (pool_used p)) =? maxconn p).
    { run. intros H; inverts H. done. }
    unfold bind at 1. destruct (connect w) as [[conn|e] w1] eqn:Hconn;
      apply connect_spec in Hconn as (Hst & Hpool & Hclosed & Htr).
    + run. intros H; inverts H. simpl. destruct Htr as [-> Htr].
      repeat split; try apply Hst; try done.
      eexists _, [EvConnect (next_conn w)]. simpl. repeat split; eauto.
    + intros H; inverts H. repeat split; try apply Hst; try done. congruence.
  - run. intros H; inverts H. simpl. repeat split; try done.
    eexists _, []. simpl. rewrite app_nil_r. repeat split; eauto.
Qed.

Section pool_steps.

Lemma get_connection_spec w r w' :
  get_connection w = (r, w') →
  same_store w w' ∧ conn_closed w' = conn_closed w ∧
  match r with
  | Raise e =>
      trace w' = trace w ++ [EvGetConnection None] ∧
      connection_pool w' = connection_pool w ∧
      (connection_pool w = None → e = not_initialized)
  | Ok conn =>
      ∃ p' pre, connection_pool w' = Some p' ∧ pool_closed p' = false ∧
                conn ∈ pool_used p' ∧ pool_used p' = {[conn]} ∪ used_of w ∧
                trace w' = trace w ++ pre ++ [EvGetConnection (Some conn)] ∧
                (pre = [] ∨ pre = [EvConnect conn])
  end.
Proof.
  unfold get_connection, used_of.
  destruct (connection_pool w) as [p|] eqn:Hp.
  - unfold bind at 1, reify at 1, bind at 1, get_world at 1. rewrite Hp.
    destruct (getconn p w) as [[conn|e] w1] eqn:Hg;
      apply (getconn_spec p w _ _ Hp) in Hg as (Hst & Hclosed & Hrest);
      run; intros H; inverts H; simpl; repeat split; try apply Hst; try done.
    + destruct Hrest as (p' & pre & Hp' & Hcl & Hused & Htr & Hpre).
      exists p', pre. rewrite Htr, Hused, <-app_assoc.
      repeat split; try done. set_solver.
    + by rewrite (proj1 Hrest).
    + by rewrite (proj2 Hrest).
  - run. rewrite Hp. simpl. intros H; inverts H. simpl. repeat split; done.
Qed.

(** Handing back a connection that the open pool counts as checked out
    always goes through. *)
Lemma return_connection_spec conn close w p :
  connection_pool w = Some p → pool_closed p = false → conn ∈ pool_used p →
  ∃ w' p', return_connection conn close w = (Ok tt, w') ∧
           same_store w w' ∧
           connection_pool w' = Some p' ∧ pool_closed p' = false ∧
           pool_used p' = pool_used p ∖ {[conn]} ∧
           trace w' = trace w ++ [EvPutconn conn close] ∧
           conn_closed w ⊆ conn_closed w' ∧
           net_script w' = net_script w ∧
           (close = true → conn ∈ conn_closed w' ∧ pool_idle p' = pool_idle p).
Proof.
  intros Hp Hcl Hin. unfold return_connection. run. rewrite Hp.
  replace (if close then putconn p conn true else putconn p conn false)
    with (putconn p conn close) by (by destruct close).
  unfold putconn. rewrite Hcl.
  rewrite bool_decide_eq_true_2 by done. simpl. run.
  destruct ((Z.of_nat (length (pool_idle p)) <? minconn p) && negb close) eqn:Hkeep;
    simpl; eexists _, _; (split; [reflexivity|]); simpl;
    repeat split; try done; try set_solver;
    subst close; by rewrite andb_false_r in Hkeep.
Qed.

Lemma return_connection_uninitialized conn close w :
  connection_pool w = None → return_connection conn close w = (Ok tt, w).
Proof. intros Hp. unfold return_connection. run. by rewrite Hp. Qed.

End pool_steps.

(** ** Traces *)

Lemma acquisitions_app (a b : list Event) :
  acquisitions (a ++ b) = (acquisitions a + acquisitions b)%nat.
Proof.
  induction a as [|[] a IH]; simpl; rewrite ?IH; reflexivity.
Qed.

Lemma held_app (a b : list Event) (s : gset nat) :
  held (a ++ b) s = held b (held a s).
Proof.
  revert s. induction a as [|[[c|]| | | | |] a IH]; intros s; simpl; by rewrite ?IH.
Qed.

Lemma held_mono (evs : list Event) (s t : gset nat) :
  s ⊆ t → held evs s ⊆ held evs t.
Proof.
  revert s t. induction evs as [|[[c|]| | | | |] evs IH]; intros s t Hst; simpl;
    try apply IH; set_solver.
Qed.

(** ** [get_valid_connection] *)

Lemma last_attempt (max_retries : Z) (i n : nat) :
  Z.of_nat (i + S n) = max_retries →
  (Z.of_nat i =? max_retries - 1) = bool_decide (n = 0%nat).
Proof.
  intros <-. destruct n as [|n].
  - rewrite bool_decide_eq_true_2 by done. apply Z.eqb_eq. lia.
  - rewrite bool_decide_eq_false_2 by done. apply Z.eqb_neq. lia.
Qed.

Lemma get_valid_connection_loop_spec (max_retries : Z) (n i : nat) (w : World) r w' :
  (n = 0%nat ∨ Z.of_nat (i + n) = max_retries) →
  get_valid_connection_loop max_retries (Z.of_nat <$> seq i n) w = (r, w') →
  ∃ evs, acquired n w r w' evs.
Proof.
  revert i w. induction n as [|n IH]; intros i w Hmax Hrun.
  { simpl in Hrun. run. inverts Hrun. exists [].
    constructor; simpl; try done; try set_solver.
    by rewrite app_nil_r. }
  destruct Hmax as [|Hmax]; [done|].
  simpl in Hrun.
  unfold bind at 1, reify at 1 in Hrun.
  destruct (get_connection w) as [[conn|e] w1] eqn:Hget;
    apply get_connection_spec in Hget as (Hst1 & Hcl1 & Hget).
  - (* a connection was handed out *)
    destruct Hget as (p1 & pre & Hp1 & Hopen1 & Hin1 & Hused1 & Htr1 & Hpre).
    unfold bind at 1, reify at 1 in Hrun.
    destruct (execute conn QSelect1 w1) as [[[]|e] w2] eqn:Hex;
      apply execute_spec in Hex as (Hst2 & Hp2 & Hcl2 & Htr2 & Hprobe); simpl in *.
    + (* the probe went through *)
      run. inverts Hrun.
      exists (pre ++ [EvGetConnection (Some conn); EvExecute conn QSelect1 None]).
      constructor.
      * rewrite Htr2, Htr1, <-!app_assoc. done.
      * by eapply same_store_trans.
      * set_solver.
      * destruct Hpre as [-> | ->]; simpl; lia.
      * destruct Hpre as [-> | ->]; simpl; done.
      * intros c q e. destruct Hpre as [-> | ->]; set_solver.
      * intros c q e. destruct Hpre as [-> | ->]; set_solver.
      * intros t. destruct Hpre as [-> | ->]; set_solver.
      * unfold used_of at 1. rewrite Hp2, Hp1, Hused1. done.
      * intros s. destruct Hpre as [-> | ->]; simpl; set_solver.
      * intros c Hc. inverts Hc. repeat split.
        -- exists p1. by rewrite Hp2.
        -- rewrite Hcl2. by apply Hprobe.
        -- destruct Hpre as [-> | ->]; done.
      * intros e He. done.
    + (* the probe failed: the connection is closed, then retry or give up *)
      unfold attempt_failed in Hrun.
      unfold bind at 1, try_except at 1 in Hrun.
      destruct (return_connection_spec conn true w2 p1)
        as (w3 & p3 & Hret & Hst3 & Hp3 & Hopen3 & Hused3 & Htr3 & Hcl3 & _ & Hclosed3);
        [congruence | done | done |].
      destruct (Hclosed3 eq_refl) as [Hconn3 _].
      rewrite Hret in Hrun.
      rewrite (last_attempt max_retries i n Hmax) in Hrun.
      set (mine := pre ++ [EvGetConnection (Some conn);
                           EvExecute conn QSelect1 (Some e); EvPutconn conn true]).
      assert (Htr : trace w3 = trace w ++ mine).
      { unfold mine. rewrite Htr3, Htr2, Htr1, <-!app_assoc. done. }
      assert (Hu3 : used_of w3 ⊆ used_of w).
      { unfold used_of at 1. rewrite Hp3, Hused3, Hused1. set_solver. }
      assert (Hst : same_store w w3).
      { eapply same_store_trans; [|exact Hst3]. by eapply same_store_trans. }
      case_bool_decide as Hn.
      * (* last attempt *)
        subst n. run. inverts Hrun. exists mine. unfold mine.
        constructor; try done.
        -- set_solver.
        -- destruct Hpre as [-> | ->]; simpl; lia.
        -- destruct Hpre as [-> | ->]; simpl; done.
        -- intros c q e'. destruct Hpre as [-> | ->]; set_solver.
        -- intros c q e'. destruct Hpre as [-> | ->]; set_solver.
        -- intros t. destruct Hpre as [-> | ->]; set_solver.
        -- set_solver.
        -- intros s. destruct Hpre as [-> | ->]; simpl; set_solver.
        -- intros e' He'. inverts He'. split; [done|].
           destruct Hpre as [-> | ->]; done.
      * (* another attempt *)
        apply IH in Hrun as [evs Hrest]; [|right; lia].
        destruct Hrest.
        exists (mine ++ evs). constructor.
        -- rewrite acq_trace0, Htr, <-app_assoc. done.
        -- by eapply same_store_trans.
        -- set_solver.
        -- rewrite acquisitions_app. unfold mine.
           destruct Hpre as [-> | ->]; simpl; lia.
        -- unfold mine. destruct Hpre as [-> | ->]; simpl; done.
        -- intros c q e' [Hc|Hc]%elem_of_app; [|by eapply acq_failed_closed0].
           apply acq_closed_mono0.
           unfold mine in Hc. destruct Hpre as [-> | ->]; set_solver.
        -- intros c q e' [Hc|Hc]%elem_of_app; [|by eapply acq_only_probes0].
           unfold mine in Hc. destruct Hpre as [-> | ->]; set_solver.
        -- intros t [Hc|Hc]%elem_of_app; [|by eapply acq_no_embed0].
           unfold mine in Hc. destruct Hpre as [-> | ->]; set_solver.
        -- set_solver.
        -- intros s. rewrite held_app.
           etrans; [apply (held_mono evs _ s)|apply acq_held0].
           unfold mine. destruct Hpre as [-> | ->]; simpl; set_solver.
        -- intros c Hc. destruct (acq_ok0 c Hc) as (? & ? & Hlast).
           repeat split; try done.
           destruct evs as [|ev evs]; [done|].
           by rewrite last_app, Hlast.
        -- intros e' He'. destruct (acq_raise0 e' He') as [? Hacq].
           split; [done|]. rewrite acquisitions_app, Hacq. unfold mine.
           destruct Hpre as [-> | ->]; simpl; lia.
  - (* no connection to be had *)
    destruct Hget as (Htr1 & Hp1 & _).
    unfold attempt_failed in Hrun. run.
    rewrite (last_attempt max_retries i n Hmax) in Hrun.
    assert (Hu1 : used_of w1 = used_of w) by (unfold used_of; by rewrite Hp1).
    case_bool_decide as Hn.
    + subst n. inverts Hrun. exists [EvGetConnection None].
      constructor; simpl; try done; try set_solver.
    + apply IH in Hrun as [evs Hrest]; [|right; lia].
      destruct Hrest.
      exists (EvGetConnection None :: evs). constructor; simpl; try done.
      * rewrite acq_trace0, Htr1, <-app_assoc. done.
      * by eapply same_store_trans.
      * set_solver.
      * lia.
      * intros c q e' [Hc|Hc]%elem_of_cons; [done|by eapply acq_failed_closed0].
      * intros c q e' [Hc|Hc]%elem_of_cons; [done|by eapply acq_only_probes0].
      * intros t [Hc|Hc]%elem_of_cons; [done|by eapply acq_no_embed0].
      * set_solver.
      * intros c Hc. destruct (acq_ok0 c Hc) as (? & ? & Hlast).
        repeat split; try done.
        destruct evs as [|ev evs]; [done|]. done.
      * intros e' He'. destruct (acq_raise0 e' He') as [? Hacq].
        split; [done|]. by rewrite Hacq.
Qed.

Lemma py_range_seq (n : Z) : py_range n = Z.of_nat <$> seq 0 (Z.to_nat n).
Proof. reflexivity. Qed.

Lemma get_valid_connection_spec (max_retries : Z) (w : World) r w' :
  get_valid_connection max_retries w = (r, w') →
  ∃ evs, acquired (Z.to_nat max_retries) w r w' evs.
Proof.
  unfold get_valid_connection. rewrite py_range_seq.
  apply get_valid_connection_loop_spec.
  destruct (Z.to_nat max_retries) eqn:Hn; [by left|right]. lia.
Qed.


Lemma get_connection_uninitialized (w : World) :
  connection_pool w = None →
  get_connection w = (Raise not_initialized, log_event (EvGetConnection None) w).
Proof. intros Hp. unfold get_connection. run. by rewrite Hp. Qed.

(** One turn of the loop. *)
Lemma get_valid_connection_loop_cons (max_retries attempt : Z) (rest : list Z) (w : World) :
  get_valid_connection_loop max_retries (attempt :: rest) w
  = match get_connection w with
    | (Raise e, w1) =>
        attempt_failed max_retries attempt None e
          (get_valid_connection_loop max_retries rest) w1
    | (Ok conn, w1) =>
        match execute conn QSelect1 w1 with
        | (Ok _, w2) => (Ok conn, w2)
        | (Raise e, w2) =>
            attempt_failed max_retries attempt (Some conn) e
              (get_valid_connection_loop max_retries rest) w2
        end
    end.
Proof.
  cbn [get_valid_connection_loop]. unfold bind at 1, reify at 1.
  destruct (get_connection w) as [[conn|e] w1]; [|done].
  unfold bind at 1, reify at 1.
  by destruct (execute conn QSelect1 w1) as [[[]|e] w2].
Qed.

(** Without a pool every attempt fails the same way. *)
Lemma get_valid_connection_loop_uninitialized (max_retries : Z) (n i : nat) (w : World) :
  connection_pool w = None →
  Z.of_nat (i + S n) = max_retries →
  get_valid_connection_loop max_retries (Z.of_nat <$> seq i (S n)) w
  = (Raise (retries_exhausted max_retries not_initialized),
     Nat.iter (S n) (log_event (EvGetConnection None)) w).
Proof.
  revert i w. induction n as [|n IH]; intros i w Hp Hmax.
  - change (Z.of_nat <$> seq i 1) with [Z.of_nat i].
    rewrite get_valid_connection_loop_cons, (get_connection_uninitialized w Hp).
    unfold attempt_failed, bind, ret; cbv beta match.
    by rewrite (last_attempt max_retries i 0 Hmax).
  - change (Z.of_nat <$> seq i (S (S n)))
      with (Z.of_nat i :: (Z.of_nat <$> seq (S i) (S n))).
    rewrite get_valid_connection_loop_cons, (get_connection_uninitialized w Hp).
    unfold attempt_failed, bind, ret; cbv beta match.
    rewrite (last_attempt max_retries i (S n) Hmax).
    rewrite bool_decide_eq_false_2 by done.
    rewrite IH; [|done|lia].
    f_equal. rewrite <-!Nat.iter_succ_r. done.
Qed.

Lemma get_valid_connection_uninitialized (max_retries : Z) (w : World) :
  connection_pool w = None → 0 < max_retries →
  get_valid_connection max_retries w
  = (Raise (retries_exhausted max_retries not_initialized),
     Nat.iter (Z.to_nat max_retries) (log_event (EvGetConnection None)) w).
Proof.
  intros Hp Hmax. unfold get_valid_connection. rewrite py_range_seq.
  destruct (Z.to_nat max_retries) as [|n] eqn:Hn; [lia|].
  apply get_valid_connection_loop_uninitialized; [done|lia].
Qed.

(** ** Scoped use of a connection *)

Lemma with_connection_spec {A B} (b : B) (mkq : B → Query) (res : B → World → A)
    (w : World) r w' :
  mkq b ≠ QSelect1 →
  try_with_conn (conn <- get_valid_connection 3 ;; ret (conn, b))
                (λ conn b', execute conn (mkq b') ;;; w <- get_world ;; ret (res b' w)) w
  = (r, w') →
  ∃ evs,
    trace w' = trace w ++ evs ∧ same_store w w' ∧
    conn_closed w ⊆ conn_closed w' ∧
    (∀ s, held evs s ⊆ s) ∧
    used_of w' ⊆ used_of w ∧
    (∀ c q e, EvExecute c q (Some e) ∈ evs → q ≠ QSelect1 →
              r = Raise e ∧ c ∈ conn_closed w' ∧ last evs = Some (EvPutconn c true)) ∧
    (∀ a, r = Ok a → ∃ w2, same_store w w2 ∧ a = res b w2).
Proof.
  intros Hq. unfold try_with_conn.
  unfold bind at 1, reify at 1, bind at 1.
  destruct (get_valid_connection 3 w) as [[conn|e] w1] eqn:Hacq;
    apply get_valid_connection_spec in Hacq
      as [evs1 [acq_trace0 acq_store0 acq_closed_mono0 acq_bound0 acq_probes0
                 acq_failed_closed0 acq_only_probes0 acq_no_embed0 acq_used0
                 acq_held0 acq_ok0 acq_raise0]].
  - (* a validated connection *)
    destruct (acq_ok0 conn eq_refl) as ((p1 & Hp1 & Hopen1 & Hin1) & Hlive & _).
    unfold ret at 1, bind at 1, reify at 1, bind at 1.
    destruct (execute conn (mkq b) w1) as [[[]|e] w2] eqn:Hex;
      apply execute_spec in Hex as (Hst2 & Hp2 & Hcl2 & Htr2 & _); simpl in Htr2.
    + (* the statement went through *)
      destruct (return_connection_spec conn false w2 p1)
        as (w3 & p3 & Hret & Hst3 & Hp3 & Hopen3 & Hused3 & Htr3 & Hcl3 & _);
        [congruence | done | done |].
      unfold bind at 2, get_world, ret at 1. cbv beta match.
      unfold bind at 1. rewrite Hret. unfold ret. intros H; inverts H.
      exists (evs1 ++ [EvExecute conn (mkq b) None; EvPutconn conn false]).
      assert (Hst : same_store w w').
      { apply same_store_trans with w2; [|apply Hst3].
        by apply same_store_trans with w1. }
      split; [|split; [|split; [|split; [|split; [|split]]]]].
      * rewrite Htr3, Htr2, acq_trace0, <-!app_assoc. done.
      * done.
      * rewrite Hcl2 in Hcl3. clear -Hcl3 acq_closed_mono0. set_solver.
      * intros s. rewrite held_app. simpl. specialize (acq_held0 s).
        clear -acq_held0. set_solver.
      * unfold used_of at 1. rewrite Hp3, Hused3.
        unfold used_of in acq_used0 at 1. rewrite Hp1 in acq_used0.
        clear -acq_used0. set_solver.
      * intros c q e [H|H]%elem_of_app Hne.
        -- by apply acq_only_probes0 in H.
        -- exfalso. clear -H. set_solver.
      * intros a Ha. inverts Ha. exists w2. split; [|done].
        by apply same_store_trans with w1.
    + (* the statement failed *)
      destruct (return_connection_spec conn true w2 p1)
        as (w3 & p3 & Hret & Hst3 & Hp3 & Hopen3 & Hused3 & Htr3 & Hcl3 & _ & Hclosed3);
        [congruence | done | done |].
      destruct (Hclosed3 eq_refl) as [Hconn3 _].
      unfold bind at 1. rewrite Hret. unfold raise. intros H; inverts H.
      exists (evs1 ++ [EvExecute conn (mkq b) (Some e); EvPutconn conn true]).
      assert (Hst : same_store w w').
      { apply same_store_trans with w2; [|apply Hst3].
        by apply same_store_trans with w1. }
      split; [|split; [|split; [|split; [|split; [|split]]]]].
      * rewrite Htr3, Htr2, acq_trace0, <-!app_assoc. done.
      * done.
      * rewrite Hcl2 in Hcl3. clear -Hcl3 acq_closed_mono0. set_solver.
      * intros s. rewrite held_app. simpl. specialize (acq_held0 s).
        clear -acq_held0. set_solver.
      * unfold used_of at 1. rewrite Hp3, Hused3.
        unfold used_of in acq_used0 at 1. rewrite Hp1 in acq_used0.
        clear -acq_used0. set_solver.
      * intros c q e' [H|H]%elem_of_app Hne.
        -- by apply acq_only_probes0 in H.
        -- assert (c = conn ∧ e' = e) as [-> ->] by (clear -H; set_solver).
           split; [done|]. split; [done|]. by rewrite last_app.
      * intros a Ha. done.
  - (* no connection: nothing to hand back *)
    unfold raise. intros H; inverts H. exists evs1.
    split; [|split; [|split; [|split; [|split; [|split]]]]]; try done.
    + intros s. specialize (acq_held0 s). clear -acq_held0. set_solver.
    + clear -acq_used0. set_solver.
    + intros c q e' H Hne. by apply acq_only_probes0 in H.
Qed.

(** ** The three query functions hand back what they check out *)

Lemma releases_of_spec {A} (m : M A) :
  (∀ w r w', m w = (r, w') →
     ∃ evs, trace w' = trace w ++ evs ∧ (∀ s, held evs s ⊆ s) ∧
            used_of w' ⊆ used_of w ∧
            (∀ c q e, EvExecute c q (Some e) ∈ evs → q ≠ QSelect1 →
                      r = Raise e ∧ c ∈ conn_closed w' ∧
                      last evs = Some (EvPutconn c true))) →
  releases m.
Proof.
  intros Hm w. destruct (m w) as [r w'] eqn:Hrun.
  destruct (Hm w r w' Hrun) as (evs & Htr & Hheld & Hused & Hfail).
  exists evs. simpl. repeat split; try done.
  - specialize (Hheld ∅). clear -Hheld. set_solver.
  - by eapply Hfail.
  - by eapply Hfail.
  - by eapply Hfail.
Qed.

Lemma get_notes_by_day_releases (target_date : date) : releases (get_notes_by_day target_date).
Proof.
  apply releases_of_spec. intros w r w' Hrun.
  apply (with_connection_spec tt (λ _, QNotesByDay target_date)
           (λ _ w, select_notes_by_day target_date (neron w))) in Hrun
    as (evs & ? & ? & ? & ? & ? & ? & ?); [|done].
  by exists evs.
Qed.

Lemma get_all_notes_releases : releases get_all_notes.
Proof.
  apply releases_of_spec. intros w r w' Hrun.
  apply (with_connection_spec tt (λ _, QAllNotes)
           (λ _ w, select_all_notes (neron w))) in Hrun
    as (evs & ? & ? & ? & ? & ? & ? & ?); [|done].
  by exists evs.
Qed.

(** What [search_notes] does before it asks for a connection. *)
Lemma search_notes_cases (config : Config) (query_text top_k : PyVal) (w : World) :
  (∃ e, search_notes config query_text top_k w = (Raise e, w))
  ∨ (∃ e, search_notes config query_text top_k w
          = (Raise e, log_event (EvEmbed query_text) w))
  ∨ (∃ v, search_notes config query_text top_k w
          = try_with_conn
              (conn <- get_valid_connection 3 ;; ret (conn, v))
              (λ conn query_embedding,
                 execute conn (QSearch query_embedding top_k) ;;;
                 w <- get_world ;;
                 ret (select_similar (vec_distance w) query_embedding top_k (neron w)))
              (log_event (EvEmbed query_text) w)).
Proof.
  unfold search_notes, try_with_conn, embed_query.
  unfold bind, reify, ret, raise, lift, get_world, emit, modify. cbv beta match.
  destruct (voyage_client w) as [client|]; [|left; by eexists].
  right. cbv beta match.
  destruct (voyage_embed w query_text) as [[|v rest]|e]; cbv beta match;
    [left; by eexists| |left; by eexists].
  case_bool_decide as Hdim; cbv beta match; [left; by eexists|].
  right. by exists v.
Qed.

Lemma search_notes_releases (config : Config) (query_text top_k : PyVal) :
  releases (search_notes config query_text top_k).
Proof.
  apply releases_of_spec. intros w r w' Hrun.
  destruct (search_notes_cases config query_text top_k w)
    as [[e He] | [[e He] | [v Hv]]]; rewrite Hrun in *.
  - inverts He. exists []. rewrite app_nil_r.
    repeat split; try done; exfalso; clear -H; set_solver.
  - inverts He. exists [EvEmbed query_text].
    repeat split; try done; exfalso; clear -H; set_solver.
  - symmetry in Hv.
    apply (with_connection_spec v (λ v, QSearch v top_k)
             (λ v w, select_similar (vec_distance w) v top_k (neron w))) in Hv
      as (evs & Htr & _ & _ & Hheld & Hused & Hfail & _); [|done].
    exists (EvEmbed query_text :: evs). split; [|split; [|split]].
    + rewrite Htr. simpl. by rewrite <-app_assoc.
    + intros s. simpl. apply Hheld.
    + done.
    + intros c q e [H|H]%elem_of_cons Hne; [done|].
      destruct (Hfail c q e H Hne) as (? & ? & Hlast).
      repeat split; try done.
      destruct evs; [by apply elem_of_nil in H|done].
Qed.

(** C6.  Each of the three query functions hands back every connection it
    checked out, whatever the outcome: over the events of a call no
    connection stays held and the pool counts no more connections as checked
    out than before.  When the statement itself fails, the function raises
    that very error, and the last thing it did was hand the connection back
    with [close=True], which closed it. *)
Theorem query_functions_release (config : Config) (target_date : date)
    (query_text top_k : PyVal) :
  releases (get_notes_by_day target_date)
  ∧ releases get_all_notes
  ∧ releases (search_notes config query_text top_k).
Proof.
  split; [|split].
  - apply get_notes_by_day_releases.
  - apply get_all_notes_releases.
  - apply search_notes_releases.
Qed.

(** ** The note queries *)

Lemma lex_leb_total (a b : list Z) : lex_leb a b = true ∨ lex_leb b a = true.
Proof.
  revert b. induction a as [|x a IH]; intros [|y b]; simpl; auto.
  destruct (x <? y) eqn:Hxy; [by left|].
  destruct (y <? x) eqn:Hyx; [by right|].
  apply IH.
Qed.

Global Instance ts_le_total : Total ts_le.
Proof. intros a b. apply lex_leb_total. Qed.

Global Instance ts_ge_total : Total ts_ge.
Proof. intros a b. apply lex_leb_total. Qed.

Lemma select_notes_by_day_spec (target_date : date) (table : list Note) :
  select_notes_by_day target_date table ≡ₚ note_row <$> filter (on_day target_date) table
  ∧ Sorted row_ts_le (select_notes_by_day target_date table).
Proof.
  unfold select_notes_by_day. split.
  - by rewrite merge_sort_Permutation.
  - apply (Sorted_fmap _ ts_le); [done|]. apply (Sorted_merge_sort _).
Qed.




(** In a healthy world the first attempt gives a validated connection. *)
Lemma get_connection_healthy (w : World) :
  healthy w →
  ∃ conn w1 p1, get_connection w = (Ok conn, w1) ∧
                connection_pool w1 = Some p1 ∧ pool_closed p1 = false ∧
                conn ∈ pool_used p1 ∧ net_script w1 = [] ∧
                (conn ∉ conn_closed w1) ∧ same_store w w1.
Proof.
  intros (p & Hp & Hopen & Hscript & Hidle).
  unfold get_connection, getconn, connect, round_trip.
  unfold bind, reify, ret, raise, lift, get_world, emit, modify, update_pool.
  cbv beta match. rewrite Hp, Hopen. cbv beta match.
  destruct (pool_idle p) as [|conn rest].
  - destruct Hidle as [Hroom Hfresh].
    rewrite (proj2 (Z.eqb_neq _ _) Hroom), Hscript. cbv beta match.
    eexists _, _, _. split; [reflexivity|]. simpl.
    repeat split; try done. set_solver.
  - eexists _, _, _. split; [reflexivity|]. simpl.
    repeat split; try done. set_solver.
Qed.

Lemma get_valid_connection_healthy (w : World) :
  healthy w →
  ∃ conn w1 p1, get_valid_connection 3 w = (Ok conn, w1) ∧
                connection_pool w1 = Some p1 ∧ pool_closed p1 = false ∧
                conn ∈ pool_used p1 ∧ net_script w1 = [] ∧
                (conn ∉ conn_closed w1) ∧ same_store w w1.
Proof.
  intros Hw.
  destruct (get_connection_healthy w Hw)
    as (conn & w1 & p1 & Hget & Hp1 & Hopen & Hin & Hscript & Hlive & Hst).
  unfold get_valid_connection.
  change (py_range 3) with [0; 1; 2].
  rewrite get_valid_connection_loop_cons, Hget.
  rewrite (execute_ok conn QSelect1 w1) by done.
  by exists conn, (log_event (EvExecute conn QSelect1 None) w1), p1.
Qed.

(** With a validated connection and no failure scheduled, the scoped query
    returns the store's answer. *)
Lemma with_connection_healthy {A B} (b : B) (mkq : B → Query) (res : B → World → A)
    (res_store : ∀ w1 w2, same_store w1 w2 → res b w2 = res b w1) (w : World) :
  healthy w → check_query (mkq b) = Ok tt →
  ∃ w', try_with_conn (conn <- get_valid_connection 3 ;; ret (conn, b))
          (λ conn b', execute conn (mkq b') ;;; w <- get_world ;; ret (res b' w)) w
        = (Ok (res b w), w').
Proof.
  intros Hw Hq.
  destruct (get_valid_connection_healthy w Hw)
    as (conn & w1 & p1 & Hget & Hp1 & Hopen & Hin & Hscript & Hlive & Hst).
  destruct (return_connection_spec conn false
              (log_event (EvExecute conn (mkq b) None) w1) p1)
    as (w3 & p3 & Hret & _); [done..|].
  exists w3. unfold try_with_conn.
  unfold bind at 1, reify at 1, bind at 1. rewrite Hget.
  unfold ret at 1, bind at 1, reify at 1, bind at 1.
  rewrite (execute_ok conn (mkq b) w1) by done.
  unfold bind at 2, get_world, ret at 1. cbv beta match.
  unfold bind at 1. rewrite Hret. unfold ret.
  f_equal. f_equal. apply res_store.
  eapply same_store_trans; [exact Hst|]. done.
Qed.

Lemma get_notes_by_day_healthy (target_date : date) (w : World) :
  healthy w →
  ∃ w', get_notes_by_day target_date w
        = (Ok (select_notes_by_day target_date (neron w)), w').
Proof.
  intros Hw.
  apply (with_connection_healthy tt (λ _, QNotesByDay target_date)
           (λ _ w, select_notes_by_day target_date (neron w))); try done.
  by intros w1 w2 (-> & _).
Qed.




Lemma world_ready_healthy : healthy world_ready.
Proof.
  eexists. split; [reflexivity|]. simpl. repeat split; done.
Qed.

(** ** Semantic search: the checks before the store is asked *)

(** C4.  When the embedding service answers with a vector whose length is
    not [EMBEDDING_DIMENSION], [search_notes] raises the dimension-mismatch
    [ValueError]; the call to the embedding service is the only thing that
    happened: no connection was asked for and no statement was sent. *)
Theorem search_notes_dimension_mismatch (config : Config) (query_text top_k : PyVal)
    (w : World) (client : string) (v : Vec) (rest : list Vec) :
  voyage_client w = Some client →
  voyage_embed w query_text = Ok (v :: rest) →
  Z.of_nat (length v) ≠ EMBEDDING_DIMENSION config →
  search_notes config query_text top_k w
  = (Raise (dimension_mismatch config (length v)), log_event (EvEmbed query_text) w)
  ∧ exn_class (dimension_mismatch config (length v)) = ValueError
  ∧ added w (search_notes config query_text top_k w).2 [EvEmbed query_text]
  ∧ connection_pool (search_notes config query_text top_k w).2 = connection_pool w.
Proof.
  intros Hclient Hembed Hdim.
  assert (Hrun : search_notes config query_text top_k w
                 = (Raise (dimension_mismatch config (length v)),
                    log_event (EvEmbed query_text) w)).
  { unfold search_notes, try_with_conn, embed_query.
    unfold bind, reify, ret, raise, lift, get_world, emit, modify. cbv beta match.
    rewrite Hclient. cbv beta match. cbn [voyage_embed log_event].
    rewrite Hembed. cbv beta match.
    by rewrite bool_decide_eq_true_2 by done. }
  rewrite Hrun. repeat split.
Qed.

Lemma search_notes_dimension_mismatch_witness :
  search_notes example_config (VStr "short") (VInt 2) world_ready
  = (Raise (dimension_mismatch example_config 2),
     log_event (EvEmbed (VStr "short")) world_ready).
Proof.
  apply (search_notes_dimension_mismatch example_config (VStr "short") (VInt 2)
           world_ready "voyage-key" [1; 0]%Q []); [reflexivity | reflexivity | ].
  vm_compute. discriminate.
Defined.

(** ** The tool dispatch handler *)

Lemma call_tool_search_unfold (config : Config) (arguments : gmap string PyVal) (w : World) :
  call_tool config "search" arguments w
  = try_except (tool_search config arguments)
      (λ e, ret (text_content ("Error: " +:+ exn_str e))) w.
Proof. reflexivity. Qed.

Lemma search_validates_top_k_first_aux (config : Config) (arguments : gmap string PyVal)
    (k : Z) (w : World) :
  arguments !! "top_k" = Some (VInt k) → k ≤ 0 →
  ∃ text,
    call_tool config "search" arguments w = (Ok (text_content text), w)
    ∧ (is_Some (arguments !! "text") → text = "top_k must be positive").
Proof.
  intros Hk Hle. rewrite call_tool_search_unfold.
  unfold try_except, tool_search, getitem, dict_get.
  unfold bind at 1.
  destruct (arguments !! "text") as [query_text|] eqn:Htext.
  - rewrite Hk. unfold ret at 1, bind at 1, lift at 1. cbn [le_zero].
    rewrite (proj2 (Z.leb_le k 0) Hle).
    eexists. split; [reflexivity|done].
  - eexists. split; [reflexivity|]. by intros [? ?].
Qed.

(** C3.  A [search] call whose [top_k] is an integer not above zero is
    answered with a failure text and leaves the world exactly as it was: the
    embedding service is not called, no connection is asked for and no
    statement is sent.  With a [text] argument present the failure text is
    the validation message. *)
Theorem search_validates_top_k_first (config : Config) (arguments : gmap string PyVal)
    (k : Z) (w : World) :
  arguments !! "top_k" = Some (VInt k) → k ≤ 0 →
  ∃ text,
    call_tool config "search" arguments w = (Ok (text_content text), w)
    ∧ (is_Some (arguments !! "text") → text = "top_k must be positive")
    ∧ (∀ e, e ∈ trace (call_tool config "search" arguments w).2 → e ∈ trace w).
Proof.
  intros Hk Hle.
  destruct (search_validates_top_k_first_aux config arguments k w Hk Hle)
    as (text & Hrun & Htext).
  exists text. rewrite Hrun. done.
Qed.

Lemma search_validates_top_k_first_witness :
  ∃ text,
    call_tool example_config "search"
      (<["text" := VStr "meeting notes"]> (<["top_k" := VInt 0]> ∅)) world_ready
    = (Ok (text_content text), world_ready)
    ∧ (is_Some ((<["text" := VStr "meeting notes"]> (<["top_k" := VInt 0]> ∅) : gmap string PyVal)
                  !! "text")
       → text = "top_k must be positive")
    ∧ (∀ e, e ∈ trace (call_tool example_config "search"
                         (<["text" := VStr "meeting notes"]> (<["top_k" := VInt 0]> ∅))
                         world_ready).2
            → e ∈ trace world_ready).
Proof.
  apply (search_validates_top_k_first example_config
           (<["text" := VStr "meeting notes"]> (<["top_k" := VInt 0]> ∅)) 0 world_ready);
    [reflexivity | lia].
Defined.

(** Every way out of the body of [call_tool] that is not an exception is
    one text item. *)
Lemma tool_get_notes_per_day_text (arguments : gmap string PyVal) (w : World) r w' :
  tool_get_notes_per_day arguments w = (Ok r, w') → ∃ text, r = text_content text.
Proof.
  unfold tool_get_notes_per_day, getitem. unfold bind at 1.
  destruct (arguments !! "day") as [day_str|]; [|discriminate].
  unfold ret at 1.
  destruct (strptime_date day_str) as [target_date|[cls m c]].
  - unfold bind at 1.
    destruct (get_notes_by_day target_date w) as [[[|row rows]|e] w1];
      intros H; inverts H; by eexists.
  - destruct cls; intros H; inverts H; by eexists.
Qed.

Lemma tool_get_all_notes_text (w : World) r w' :
  tool_get_all_notes w = (Ok r, w') → ∃ text, r = text_content text.
Proof.
  unfold tool_get_all_notes. unfold bind at 1.
  destruct (get_all_notes w) as [[[|row rows]|e] w1];
    intros H; inverts H; by eexists.
Qed.

Lemma tool_search_text (config : Config) (arguments : gmap string PyVal) (w : World) r w' :
  tool_search config arguments w = (Ok r, w') → ∃ text, r = text_content text.
Proof.
  unfold tool_search, getitem. unfold bind at 1.
  destruct (arguments !! "text") as [query_text|]; [|discriminate].
  unfold ret at 1, bind at 1, lift at 1.
  destruct (le_zero (dict_get arguments "top_k" (VInt 5))) as [[|]|e];
    [intros H; inverts H; by eexists | | discriminate].
  unfold bind at 1.
  destruct (search_notes config query_text (dict_get arguments "top_k" (VInt 5)) w)
    as [[[|row rows]|e] w1]; intros H; inverts H; by eexists.
Qed.

Lemma call_tool_body_text (config : Config) (name : string)
    (arguments : gmap string PyVal) (w : World) r w' :
  call_tool_body config name arguments w = (Ok r, w') → ∃ text, r = text_content text.
Proof.
  unfold call_tool_body. repeat case_bool_decide.
  - apply tool_get_notes_per_day_text.
  - apply tool_get_all_notes_text.
  - apply tool_search_text.
  - intros Hr; inverts Hr. by eexists.
Qed.

Lemma call_tool_raise (config : Config) (name : string)
    (arguments : gmap string PyVal) (w : World) e w' :
  call_tool_body config name arguments w = (Raise e, w') →
  call_tool config name arguments w = (Ok (text_content ("Error: " +:+ exn_str e)), w').
Proof. intros H. unfold call_tool, try_except. by rewrite H. Qed.

(** C2.  Whatever the tool name, the arguments and the state of the
    collaborators, [call_tool] returns a list of exactly one item of type
    [text] and raises nothing.  A [day] that [strptime] rejects is answered
    with the invalid-date text, and a [top_k] that is an integer or a float
    not above zero with the validation text, both without touching a
    collaborator; and an exception raised by any of the three data
    functions comes back as the text [Error: ] followed by its message. *)
Theorem call_tool_never_raises (config : Config) (name : string)
    (arguments : gmap string PyVal) (w : World) :
  (∃ text w', call_tool config name arguments w
              = (Ok [mkTextContent "text" text], w'))
  ∧ (∀ s m c, arguments !! "day" = Some (VStr s) →
              strptime_date (VStr s) = Raise (Exn ValueError m c) →
              call_tool config "get_notes_per_day" arguments w
              = (Ok [mkTextContent "text" ("Invalid date format: " +:+ s)], w))
  ∧ (∀ k query_text, arguments !! "top_k" = Some (VInt k) → k ≤ 0 →
                     arguments !! "text" = Some query_text →
                     call_tool config "search" arguments w
                     = (Ok [mkTextContent "text" "top_k must be positive"], w))
  ∧ (∀ x repr query_text, arguments !! "top_k" = Some (VFloat (FNum x) repr) →
                          (x <= 0)%Q →
                          arguments !! "text" = Some query_text →
                          call_tool config "search" arguments w
                          = (Ok [mkTextContent "text" "top_k must be positive"], w))
  ∧ (∀ s target_date cls msg cause w',
       arguments !! "day" = Some (VStr s) →
       strptime_date (VStr s) = Ok target_date →
       get_notes_by_day target_date w = (Raise (Exn cls msg cause), w') →
       call_tool config "get_notes_per_day" arguments w
       = (Ok [mkTextContent "text" ("Error: " +:+ msg)], w'))
  ∧ (∀ cls msg cause w',
       get_all_notes w = (Raise (Exn cls msg cause), w') →
       call_tool config "get_all_notes" arguments w
       = (Ok [mkTextContent "text" ("Error: " +:+ msg)], w'))
  ∧ (∀ k query_text cls msg cause w',
       arguments !! "top_k" = Some (VInt k) → 0 < k →
       arguments !! "text" = Some query_text →
       search_notes config query_text (VInt k) w = (Raise (Exn cls msg cause), w') →
       call_tool config "search" arguments w
       = (Ok [mkTextContent "text" ("Error: " +:+ msg)], w')).
Proof.
  split; [|split; [|split; [|split; [|split; [|split]]]]].
  - destruct (call_tool_body config name arguments w) as [[r|e] w'] eqn:Hbody.
    + destruct (call_tool_body_text _ _ _ _ _ _ Hbody) as [text ->].
      exists text, w'. unfold call_tool, try_except. by rewrite Hbody.
    + eexists _, w'. by apply call_tool_raise.
  - intros s m c Hday Hparse.
    unfold call_tool, try_except, call_tool_body. simpl.
    unfold tool_get_notes_per_day, getitem, bind, ret. rewrite Hday, Hparse. done.
  - intros k query_text Hk Hle Htext.
    destruct (search_validates_top_k_first_aux config arguments k w Hk Hle) as [text [Hrun Htxt]].
    rewrite Hrun. by rewrite Htxt.
  - intros x repr query_text Hk Hle%Qle_bool_iff Htext.
    rewrite call_tool_search_unfold.
    unfold try_except, tool_search, getitem, dict_get, bind, ret, lift.
    rewrite Htext, Hk. cbn [le_zero]. by rewrite Hle.
  - intros s target_date cls msg cause w' Hday Hparse Hraise.
    apply (call_tool_raise _ _ _ _ (Exn cls msg cause)). unfold call_tool_body. simpl.
    unfold tool_get_notes_per_day, getitem, bind, ret. by rewrite Hday, Hparse, Hraise.
  - intros cls msg cause w' Hraise.
    apply (call_tool_raise _ _ _ _ (Exn cls msg cause)). unfold call_tool_body. simpl.
    unfold tool_get_all_notes, bind. by rewrite Hraise.
  - intros k query_text cls msg cause w' Hk Hpos Htext Hraise.
    apply (call_tool_raise _ _ _ _ (Exn cls msg cause)). unfold call_tool_body. simpl.
    unfold tool_search, getitem, dict_get, bind, ret, lift. rewrite Htext, Hk. simpl.
    rewrite (proj2 (Z.leb_gt k 0) Hpos). by rewrite Hraise.
Qed.

(** ** Shutdown *)

(** C9, as the code has it.  On an open pool [close_pool] closes every
    connection, idle or checked out, and marks the pool closed; without a
    pool it does nothing; on a pool that is already closed it changes
    nothing and raises the pool's own error. *)
Theorem close_pool_closes_all (w : World) :
  match connection_pool w with
  | None => close_pool w = (Ok tt, w)
  | Some p =>
      if pool_closed p
      then close_pool w = (Raise pool_is_closed, w)
      else ∃ w' p',
          close_pool w = (Ok tt, w')
          ∧ connection_pool w' = Some p' ∧ pool_closed p' = true
          ∧ (∀ conn, conn ∈ pool_idle p ∨ conn ∈ pool_used p → conn ∈ conn_closed w')
          ∧ close_pool w' = (Raise pool_is_closed, w')
  end.
Proof.
  unfold close_pool, closeall.
  unfold bind, ret, raise, get_world, modify, update_pool, emit. cbv beta match.
  destruct (connection_pool w) as [p|] eqn:Hp; [|done].
  destruct (pool_closed p) eqn:Hcl; [done|].
  eexists _, _. split; [reflexivity|]. simpl.
  repeat split.
  intros conn [Hc|Hc]; set_solver.
Qed.

(** A second shutdown after a successful one fails. *)
Lemma close_pool_twice_fails :
  (close_pool world_ready).1 = Ok tt
  ∧ (close_pool (close_pool world_ready).2).1 ≠ Ok tt.
Proof. split; [reflexivity|]. vm_compute. discriminate. Qed.

(** ** Before [initialize_pool] *)

Lemma with_connection_uninitialized {A B} (query : nat → B → M A)
    (b : B) (w : World) :
  connection_pool w = None →
  try_with_conn (conn <- get_valid_connection 3 ;; ret (conn, b)) query w
  = (Raise (retries_exhausted 3 not_initialized),
     Nat.iter 3 (log_event (EvGetConnection None)) w).
Proof.
  intros Hp. unfold try_with_conn.
  unfold bind at 1, reify at 1, bind at 1.
  by rewrite (get_valid_connection_uninitialized 3 w Hp).
Qed.

(** C10, as the code has it.  Without a pool, [get_connection] raises the
    [RuntimeError] that says the pool is not initialized;
    [get_valid_connection] raises, after its attempts, a [RuntimeError]
    whose cause is that error, and so do [get_notes_by_day] and
    [get_all_notes]; [search_notes] fails as well; and [return_connection]
    does nothing. *)
Theorem uninitialized_pool_fails (config : Config) (w : World) :
  connection_pool w = None →
  (get_connection w).1 = Raise not_initialized
  ∧ exn_class not_initialized = RuntimeError
  ∧ (∀ max_retries, 0 < max_retries →
       (get_valid_connection max_retries w).1
       = Raise (retries_exhausted max_retries not_initialized))
  ∧ (∀ target_date,
       (get_notes_by_day target_date w).1 = Raise (retries_exhausted 3 not_initialized))
  ∧ (get_all_notes w).1 = Raise (retries_exhausted 3 not_initialized)
  ∧ exn_class (retries_exhausted 3 not_initialized) = RuntimeError
  ∧ exn_cause (retries_exhausted 3 not_initialized) = Some not_initialized
  ∧ (∀ query_text top_k, ∃ e, (search_notes config query_text top_k w).1 = Raise e)
  ∧ (∀ conn close, return_connection conn close w = (Ok tt, w)).
Proof.
  intros Hp. repeat split.
  - by rewrite (get_connection_uninitialized w Hp).
  - intros n Hn. by rewrite (get_valid_connection_uninitialized n w Hp Hn).
  - intros d. unfold get_notes_by_day.
    by rewrite (with_connection_uninitialized _ tt w Hp).
  - unfold get_all_notes.
    by rewrite (with_connection_uninitialized _ tt w Hp).
  - intros q k.
    destruct (search_notes_cases config q k w) as [[e He] | [[e He] | [v Hv]]].
    + exists e. by rewrite He.
    + exists e. by rewrite He.
    + rewrite Hv.
      rewrite (with_connection_uninitialized _ v); [by eexists|done].
  - intros conn close. by apply return_connection_uninitialized.
Qed.

Lemma uninitialized_pool_fails_witness :
  (get_connection (world_start [])).1 = Raise not_initialized
  ∧ (get_all_notes (world_start [])).1 = Raise (retries_exhausted 3 not_initialized).
Proof.
  destruct (uninitialized_pool_fails example_config (world_start []) eq_refl)
    as (H1 & _ & _ & _ & H2 & _).
  split; [exact H1 | exact H2].
Defined.

(** In a process where [initialize_pool] never ran, a note query raises an
    error whose message is not the not-initialized one, and [search_notes]
    raises an [AttributeError], not a [RuntimeError]. *)
Lemma uninitialized_errors_differ :
  (∃ e, (get_all_notes (world_start [])).1 = Raise e
        ∧ exn_str e ≠ exn_str not_initialized)
  ∧ (∃ e, (search_notes example_config (VStr "meeting notes") (VInt 5) (world_start [])).1
          = Raise e
          ∧ exn_class e ≠ RuntimeError).
Proof.
  split; eexists; (split; [vm_compute; reflexivity|]); vm_compute; discriminate.
Qed.

(** ** The handshake: quoting round trip *)

Lemma replace_char_app (a b : ascii) (s t : string) :
  replace_char a b (s +:+ t) = replace_char a b s +:+ replace_char a b t.
Proof.
  induction s as [|c s IH]; [reflexivity|].
  rewrite append_cons. simpl. rewrite append_cons. by rewrite IH.
Qed.

Ltac each_byte c := destruct c as [[] [] [] [] [] [] [] []].

(** Without a space in it, a string is quoted the same with the space
    declared safe, and the result holds no space. *)
Lemma quote_and_space (s : string) :
  (mem_char " " s = false → quote " " s = quote EmptyString s)
  ∧ (mem_char " " s = false →
     replace_char " " "+" (quote EmptyString s) = quote EmptyString s).
Proof.
  induction s as [|c s [IH1 IH2]]; [done|].
  cbn [mem_char quote]. split; intros [Hc Hs]%orb_false_elim.
  - rewrite (IH1 Hs). f_equal. clear -Hc. each_byte c; try reflexivity; discriminate.
  - rewrite replace_char_app, (IH2 Hs). f_equal.
    clear -Hc. each_byte c; try reflexivity; discriminate.
Qed.


Lemma quote_plus_cons (c : ascii) (s : string) :
  quote_plus (String c s) = quote_plus_char c +:+ quote_plus s.
Proof.
  assert (Hsp : ∀ t, replace_char " " "+" (quote " " t) = quote_plus t).
  { intros t. unfold quote_plus. destruct (mem_char " " t) eqn:Ht; [done|].
    rewrite (proj1 (quote_and_space t) Ht). apply (proj2 (quote_and_space t)), Ht. }
  unfold quote_plus at 1. cbn [mem_char quote].
  destruct (Ascii.eqb " " c) eqn:Hc.
  - apply Ascii.eqb_eq in Hc as <-. cbn [orb].
    rewrite replace_char_app, Hsp. reflexivity.
  - cbn [orb]. destruct (mem_char " " s) eqn:Hs.
    + rewrite replace_char_app, Hsp. f_equal.
      clear Hsp Hs. each_byte c; try reflexivity; discriminate.
    + unfold quote_plus. rewrite Hs. f_equal.
      clear Hsp Hs. each_byte c; try reflexivity; discriminate.
Qed.

Lemma unquote_plus_cons (c : ascii) (rest : string) :
  unquote_plus (quote_plus_char c +:+ rest) = String c (unquote_plus rest).
Proof. unfold unquote_plus. each_byte c; reflexivity. Qed.

Lemma unquote_plus_quote_plus (s : string) : unquote_plus (quote_plus s) = s.
Proof.
  induction s as [|c s IH]; [reflexivity|].
  by rewrite quote_plus_cons, unquote_plus_cons, IH.
Qed.

Lemma mem_char_app (c : ascii) (s t : string) :
  mem_char c (s +:+ t) = mem_char c s || mem_char c t.
Proof.
  induction s as [|d s IH]; [reflexivity|].
  rewrite append_cons. cbn [mem_char]. by rewrite IH, orb_assoc.
Qed.

(** The quoted form holds neither of the two separators. *)
Lemma quote_plus_no_separator (s : string) :
  mem_char "&" (quote_plus s) = false ∧ mem_char "=" (quote_plus s) = false.
Proof.
  induction s as [|c s [IH1 IH2]]; [done|].
  rewrite quote_plus_cons, !mem_char_app, IH1, IH2, !orb_false_r.
  split; each_byte c; reflexivity.
Qed.

Lemma quote_plus_empty (s : string) : quote_plus s = EmptyString ↔ s = EmptyString.
Proof.
  split; [|by intros ->].
  destruct s as [|c s]; [done|]. rewrite quote_plus_cons.
  each_byte c; discriminate.
Qed.

Lemma split_on_no_sep (sep : ascii) (p : string) :
  mem_char sep p = false → split_on sep p = [p].
Proof.
  induction p as [|c p IH]; [reflexivity|].
  cbn [mem_char split_on]. intros [Hc Hp]%orb_false_elim.
  rewrite Ascii.eqb_sym, Hc. by rewrite (IH Hp).
Qed.

Lemma split_on_sep (sep : ascii) (p rest : string) :
  mem_char sep p = false →
  split_on sep (p +:+ String sep rest) = p :: split_on sep rest.
Proof.
  induction p as [|c p IH].
  - intros _. rewrite append_nil. cbn [split_on]. by rewrite Ascii.eqb_refl.
  - cbn [mem_char]. intros [Hc Hp]%orb_false_elim.
    rewrite append_cons. cbn [split_on].
    rewrite Ascii.eqb_sym, Hc. by rewrite (IH Hp).
Qed.

Lemma split_once_sep (sep : ascii) (p rest : string) :
  mem_char sep p = false →
  split_once sep (p +:+ String sep rest) = (p, Some rest).
Proof.
  induction p as [|c p IH].
  - intros _. rewrite append_nil. cbn [split_once]. by rewrite Ascii.eqb_refl.
  - cbn [mem_char]. intros [Hc Hp]%orb_false_elim.
    rewrite append_cons. cbn [split_once].
    rewrite Ascii.eqb_sym, Hc. by rewrite (IH Hp).
Qed.

Lemma encode_pair_no_amp (kv : string * string) : mem_char "&" (encode_pair kv) = false.
Proof.
  unfold encode_pair. rewrite !mem_char_app.
  rewrite (proj1 (quote_plus_no_separator kv.1)), (proj1 (quote_plus_no_separator kv.2)).
  reflexivity.
Qed.

Lemma parse_pair_encode_pair (kv : string * string) :
  parse_pair (encode_pair kv)
  = if bool_decide (kv.2 = EmptyString) then None else Some kv.
Proof.
  destruct kv as [k v]. unfold parse_pair, encode_pair. cbn [fst snd].
  rewrite bool_decide_eq_false_2.
  2:{ destruct (quote_plus k); discriminate. }
  change ("=" +:+ quote_plus v) with (String "=" (quote_plus v)).
  rewrite split_once_sep by apply quote_plus_no_separator.
  case_bool_decide as Hq; case_bool_decide as Hv.
  - done.
  - by apply (proj1 (quote_plus_empty v)) in Hq.
  - subst v. done.
  - by rewrite !unquote_plus_quote_plus.
Qed.

Lemma parse_qsl_urlencode_cons (kv : string * string) (params : list (string * string)) :
  parse_qsl (urlencode (kv :: params))
  = (if bool_decide (kv.2 = EmptyString) then [] else [kv]) ++ parse_qsl (urlencode params).
Proof.
  unfold parse_qsl, urlencode.
  destruct params as [|kv' params].
  - cbn [fmap list_fmap join]. rewrite split_on_no_sep by apply encode_pair_no_amp.
    cbn [omap list_omap]. rewrite parse_pair_encode_pair.
    by destruct (bool_decide (kv.2 = EmptyString)).
  - change (join "&" (encode_pair <$> kv :: kv' :: params))
      with (encode_pair kv +:+ String "&" (join "&" (encode_pair <$> kv' :: params))).
    rewrite split_on_sep by apply encode_pair_no_amp.
    cbn [omap list_omap]. rewrite parse_pair_encode_pair.
    by destruct (bool_decide (kv.2 = EmptyString)).
Qed.

Lemma parse_qsl_urlencode_aux (params : list (string * string)) :
  parse_qsl (urlencode params) = filter (λ kv, kv.2 ≠ EmptyString) params.
Proof.
  induction params as [|kv params IH]; [reflexivity|].
  rewrite parse_qsl_urlencode_cons, IH, filter_cons.
  case_bool_decide as Hv; case_decide; done.
Qed.

(** X1.  Parsing what [urlencode] wrote gives the items back, in order,
    except those whose value is the empty string; in particular a
    dictionary without blank values comes back unchanged. *)
Theorem parse_qsl_urlencode (params : list (string * string)) :
  parse_qsl (urlencode params) = filter (λ kv, kv.2 ≠ EmptyString) params
  ∧ (Forall (λ kv, kv.2 ≠ EmptyString) params → parse_qsl (urlencode params) = params).
Proof.
  split; [apply parse_qsl_urlencode_aux|].
  intros Hall. rewrite parse_qsl_urlencode_aux.
  induction Hall as [|kv params Hkv Hall IH]; [done|].
  by rewrite filter_cons, decide_True, IH.
Qed.

Lemma quote_all_safe (safe s : string) : all_safe safe s = true → quote safe s = s.
Proof.
  induction s as [|c s IH]; [reflexivity|].
  cbn [all_safe quote]. intros [Hc Hs]%andb_prop. by rewrite Hc, (IH Hs).
Qed.

Lemma all_safe_app (safe s t : string) :
  all_safe safe (s +:+ t) = all_safe safe s && all_safe safe t.
Proof.
  induction s as [|c s IH]; [reflexivity|].
  rewrite append_cons. cbn [all_safe]. by rewrite IH, andb_assoc.
Qed.

Lemma dict_lookup_filter_none (key : string) (P : string * string → Prop)
    `{∀ kv, Decision (P kv)} (params : list (string * string)) :
  dict_lookup key params = None → dict_lookup key (filter P params) = None.
Proof.
  induction params as [|[k v] params IH]; [done|].
  cbn [dict_lookup]. destruct (dict_lookup key params); [done|].
  case_bool_decide; [done|]. intros _. rewrite filter_cons.
  case_decide; [|by apply IH].
  cbn [dict_lookup]. rewrite IH by done. by rewrite bool_decide_eq_false_2.
Qed.

Lemma dict_lookup_filter_some (key v : string) (P : string * string → Prop)
    `{∀ kv, Decision (P kv)} (params : list (string * string)) :
  (∀ k, P (k, v)) →
  dict_lookup key params = Some v → dict_lookup key (filter P params) = Some v.
Proof.
  intros HP. induction params as [|[k v0] params IH]; [done|].
  cbn [dict_lookup]. destruct (dict_lookup key params) as [v'|] eqn:Hrest.
  - intros Hv. rewrite filter_cons. case_decide; [cbn [dict_lookup]|]; by rewrite IH.
  - case_bool_decide as Hk; [|done]. intros [= ->].
    rewrite filter_cons, decide_True by apply HP.
    cbn [dict_lookup]. rewrite (dict_lookup_filter_none key P params Hrest).
    by rewrite bool_decide_eq_true_2.
Qed.

(** X2.  The consent step round-trips the request: posted back the
    parameters that [urlencode] wrote, [authorize_callback] answers 303 and
    sends the client to its own [redirect_uri] with the constant code and
    its own [state]; with URL-safe values the [location] is that URL letter
    for letter. *)
Theorem authorize_callback_round_trip (params : list (string * string))
    (redirect_uri state : string) :
  dict_lookup "redirect_uri" params = Some redirect_uri → redirect_uri ≠ EmptyString →
  dict_lookup "state" params = Some state → state ≠ EmptyString →
  authorize_callback (urlencode params)
  = mkResponse 303
      [("location",
        quote redirect_safe
          (redirect_uri +:+ "?code=" +:+ fake_code +:+ "&state=" +:+ state))]
      EmptyString
  ∧ (all_safe redirect_safe redirect_uri = true → all_safe redirect_safe state = true →
     headers_get "Location" (resp_headers (authorize_callback (urlencode params)))
     = Some (redirect_uri +:+ "?code=fake_auth_code_always_same&state=" +:+ state)).
Proof.
  intros Hu Hune Hs Hsne.
  assert (Hrun : authorize_callback (urlencode params)
                 = mkResponse 303
                     [("location",
                       quote redirect_safe
                         (redirect_uri +:+ "?code=" +:+ fake_code +:+ "&state=" +:+ state))]
                     EmptyString).
  { unfold authorize_callback. rewrite parse_qsl_urlencode_aux.
    rewrite (dict_lookup_filter_some "redirect_uri" redirect_uri) by done.
    by rewrite (dict_lookup_filter_some "state" state) by done. }
  split; [exact Hrun|].
  intros Hsafe_u Hsafe_s. rewrite Hrun. cbn [resp_headers headers_get].
  rewrite bool_decide_eq_true_2 by reflexivity. f_equal.
  apply quote_all_safe. rewrite !all_safe_app, Hsafe_u, Hsafe_s. reflexivity.
Qed.

Lemma authorize_callback_round_trip_witness :
  headers_get "Location"
    (resp_headers (authorize_callback
       (urlencode [("client_id", "neron-mcp"); ("redirect_uri", "https://claude.ai/cb");
                   ("state", "xyz")])))
  = Some "https://claude.ai/cb?code=fake_auth_code_always_same&state=xyz".
Proof.
  apply (authorize_callback_round_trip
           [("client_id", "neron-mcp"); ("redirect_uri", "https://claude.ai/cb");
            ("state", "xyz")] "https://claude.ai/cb" "xyz");
    solve [reflexivity | discriminate].
Defined.

(** X3.  Without a [redirect_uri] among the parameters (or with a blank
    one dropped by the parser) the client is sent to a relative URL that
    starts with the text [None]; a missing [state] comes back as [None]. *)
Theorem authorize_callback_missing (params : list (string * string)) :
  dict_lookup "redirect_uri" params = None → dict_lookup "state" params = None →
  authorize_callback (urlencode params)
  = mkResponse 303
      [("location", "None?code=fake_auth_code_always_same&state=None")] EmptyString.
Proof.
  intros Hu Hs. unfold authorize_callback. rewrite parse_qsl_urlencode_aux.
  rewrite (dict_lookup_filter_none "redirect_uri") by done.
  by rewrite (dict_lookup_filter_none "state") by done.
Qed.

Lemma authorize_callback_missing_witness :
  authorize_callback (urlencode [("client_id", "neron-mcp")])
  = mkResponse 303
      [("location", "None?code=fake_auth_code_always_same&state=None")] EmptyString.
Proof. apply (authorize_callback_missing [("client_id", "neron-mcp")]); reflexivity. Defined.

(** ** The handshake and the gate together *)

(** X5.  The credential handed out by the token endpoint opens the gate:
    a request that presents, after [Bearer ], the [access_token] of any
    token response is forwarded to the session manager. *)
Theorem issued_token_passes_gate (config : Config) (exchange request : Request)
    (access_token : string) :
  json_field "access_token" (token_exchange config exchange) = Some (JStr access_token) →
  headers_get "Authorization" (req_headers request) = Some ("Bearer " +:+ access_token) →
  verify_token config request = true ∧ handle_mcp config request = Ok (Forward request).
Proof.
  intros Htok Hhdr.
  assert (Hcfg : MCP_AUTH_TOKEN config = Some access_token).
  { cbn in Htok. unfold FAKE_TOKEN in Htok.
    destruct (MCP_AUTH_TOKEN config); by inverts Htok. }
  assert (Hok : verify_token config request = true)
    by by eapply verify_token_accepts.
  split; [done|]. unfold handle_mcp. by rewrite Hok.
Qed.

Lemma issued_token_passes_gate_witness :
  verify_token example_config
    (mkRequest "POST" "/" [("authorization", "Bearer s3cret-token")] []) = true
  ∧ handle_mcp example_config
      (mkRequest "POST" "/" [("authorization", "Bearer s3cret-token")] [])
    = Ok (Forward (mkRequest "POST" "/" [("authorization", "Bearer s3cret-token")] [])).
Proof.
  apply (issued_token_passes_gate example_config
           (mkRequest "POST" "/token" [] [("code", "anything")])
           (mkRequest "POST" "/" [("authorization", "Bearer s3cret-token")] [])
           "s3cret-token"); reflexivity.
Defined.

(** X6.  With [MCP_AUTH_TOKEN] unset the gate is shut for everyone: no
    request is accepted and none reaches the session manager ([handle_mcp]
    raises on the missing [config.SERVER_DOMAIN] while it builds its
    refusal), and the token endpoint hands out [null]. *)
Theorem unset_token_rejects_all (config : Config) (request : Request) :
  MCP_AUTH_TOKEN config = None →
  verify_token config request = false
  ∧ (∀ forwarded, handle_mcp config request ≠ Ok (Forward forwarded))
  ∧ handle_mcp config request
    = Raise (Exn AttributeError "module 'config' has no attribute 'SERVER_DOMAIN'" None)
  ∧ json_field "access_token" (token_exchange config request) = Some JNull.
Proof.
  intros Hcfg.
  assert (Hno : verify_token config request = false).
  { destruct (verify_token config request) eqn:Hv; [|done].
    apply verify_token_sound in Hv as (token & Htok & _). congruence. }
  split; [done|].
  assert (Hraise : handle_mcp config request
                   = Raise (Exn AttributeError
                                "module 'config' has no attribute 'SERVER_DOMAIN'" None)).
  { unfold handle_mcp. by rewrite Hno. }
  split; [rewrite Hraise; intros ?; discriminate|]. split; [exact Hraise|].
  cbn. unfold FAKE_TOKEN. by rewrite Hcfg.
Qed.

Lemma unset_token_rejects_all_witness :
  verify_token
    (mkConfig "neron-mcp" None None "voyage-3-large" 1024
              "localhost" "5432" "postgres" "neron_bot" None 2 10)
    (mkRequest "GET" "/" [("Authorization", "Bearer None")] []) = false.
Proof.
  apply (unset_token_rejects_all
           (mkConfig "neron-mcp" None None "voyage-3-large" 1024
                     "localhost" "5432" "postgres" "neron_bot" None 2 10)
           (mkRequest "GET" "/" [("Authorization", "Bearer None")] [])).
  reflexivity.
Defined.

(** ** config.py *)

Lemma missing_config_eq (config : Config) :
  missing_config config
  = (if falsy_opt (MCP_AUTH_TOKEN config) then ["MCP_AUTH_TOKEN"] else [])
    ++ (if falsy_opt (VOYAGE_API_KEY config) then ["VOYAGE_API_KEY"] else [])
    ++ (if falsy_opt (DB_PASSWORD config) then ["DB_PASSWORD"] else []).
Proof.
  unfold missing_config. rewrite !filter_cons, filter_nil. cbn [snd].
  destruct (falsy_opt (MCP_AUTH_TOKEN config)),
           (falsy_opt (VOYAGE_API_KEY config)),
           (falsy_opt (DB_PASSWORD config));
    repeat (rewrite decide_True by done) || (rewrite decide_False by done);
    reflexivity.
Qed.

(** X7.  [validate_config] passes exactly when the token, the API key and
    the database password are all set to non-empty strings; otherwise it
    raises a [ValueError], and the settings it holds to be missing are
    exactly the unset or empty ones among the three. *)
Theorem validate_config_spec (config : Config) :
  (validate_config config = Ok tt ↔
     falsy_opt (MCP_AUTH_TOKEN config) = false
     ∧ falsy_opt (VOYAGE_API_KEY config) = false
     ∧ falsy_opt (DB_PASSWORD config) = false)
  ∧ (validate_config config = Ok tt
     ∨ validate_config config
       = Raise (Exn ValueError
                  ("Missing required config: " +:+ join ", " (missing_config config)) None))
  ∧ ("MCP_AUTH_TOKEN" ∈ missing_config config ↔ falsy_opt (MCP_AUTH_TOKEN config) = true)
  ∧ ("VOYAGE_API_KEY" ∈ missing_config config ↔ falsy_opt (VOYAGE_API_KEY config) = true)
  ∧ ("DB_PASSWORD" ∈ missing_config config ↔ falsy_opt (DB_PASSWORD config) = true).
Proof.
  unfold validate_config. rewrite missing_config_eq.
  destruct (falsy_opt (MCP_AUTH_TOKEN config)),
           (falsy_opt (VOYAGE_API_KEY config)),
           (falsy_opt (DB_PASSWORD config)); cbn [app];
    (split; [split; [discriminate || done | by intros (? & ? & ?)]|]);
    (split; [(by left) || (by right)|]);
    repeat split; intros; try done; try set_solver.
Qed.

(** X8.  Once [validate_config] has passed, the gate accepts a request only
    on a non-empty credential. *)
Theorem validated_gate_needs_token (config : Config) (request : Request) :
  validate_config config = Ok tt → verify_token config request = true →
  ∃ token, token ≠ EmptyString ∧ MCP_AUTH_TOKEN config = Some token
           ∧ headers_get "Authorization" (req_headers request) = Some ("Bearer " +:+ token).
Proof.
  intros Hval (token & Hcfg & Hhdr)%verify_token_sound.
  exists token. repeat split; try done.
  intros ->. unfold validate_config in Hval.
  rewrite missing_config_eq, Hcfg in Hval. discriminate.
Qed.

Lemma validated_gate_needs_token_witness :
  ∃ token, token ≠ EmptyString ∧ MCP_AUTH_TOKEN example_config = Some token
           ∧ headers_get "Authorization" [("authorization", "Bearer s3cret-token")]
             = Some ("Bearer " +:+ token).
Proof.
  apply (validated_gate_needs_token example_config
           (mkRequest "POST" "/" [("authorization", "Bearer s3cret-token")] []));
    reflexivity.
Defined.

(** ** The tools and their arguments *)

(** X9.  A name that [list_tools] does not advertise is answered with the
    unknown-tool text and nothing else happens. *)
Theorem call_tool_unknown (config : Config) (name : string)
    (arguments : gmap string PyVal) (w : World) :
  name ∉ tool_name <$> list_tools →
  call_tool config name arguments w = (Ok (text_content ("Unknown tool: " +:+ name)), w).
Proof.
  intros Hname. unfold call_tool, try_except, call_tool_body.
  repeat case_bool_decide; subst; try done; exfalso; apply Hname; cbn; set_solver.
Qed.

Lemma call_tool_unknown_witness :
  call_tool example_config "delete_notes" ∅ world_ready
  = (Ok (text_content "Unknown tool: delete_notes"), world_ready).
Proof.
  apply (call_tool_unknown example_config "delete_notes" ∅ world_ready).
  vm_compute. intros H. repeat (apply elem_of_cons in H as [H|H]; [discriminate|]).
  by apply elem_of_nil in H.
Defined.

(** X10.  For every advertised tool, a call that lacks one of the arguments
    its schema requires is answered with the error text naming the missing
    key, before any collaborator is touched. *)
Theorem call_tool_missing_required (config : Config) (tool : Tool) (key : string)
    (arguments : gmap string PyVal) (w : World) :
  tool ∈ list_tools → key ∈ tool_required tool → arguments !! key = None →
  call_tool config (tool_name tool) arguments w
  = (Ok (text_content ("Error: '" +:+ key +:+ "'")), w).
Proof.
  intros Htool Hkey Harg. unfold list_tools in Htool.
  repeat (apply elem_of_cons in Htool as [->|Htool]); cbn in Hkey.
  - apply list_elem_of_singleton in Hkey as ->.
    unfold call_tool, try_except, call_tool_body. cbn.
    unfold tool_get_notes_per_day, getitem, bind. by rewrite Harg.
  - by apply elem_of_nil in Hkey.
  - apply list_elem_of_singleton in Hkey as ->.
    unfold call_tool, try_except, call_tool_body. cbn.
    unfold tool_search, getitem, bind. by rewrite Harg.
  - by apply elem_of_nil in Htool.
Qed.

Lemma call_tool_missing_required_witness :
  call_tool example_config "search" (<["top_k" := VInt 3]> ∅) world_ready
  = (Ok (text_content "Error: 'text'"), world_ready).
Proof.
  apply (call_tool_missing_required example_config
           (mkTool "search" "Semantic search using embeddings"
                   [("text", "string"); ("top_k", "integer")] ["text"])
           "text" (<["top_k" := VInt 3]> ∅) world_ready).
  - unfold list_tools. set_solver.
  - cbn. set_solver.
  - reflexivity.
Defined.

(** X11.  Leaving [top_k] out of a [search] call is the same as asking for
    five results. *)
Theorem search_default_top_k (config : Config) (arguments : gmap string PyVal) (w : World) :
  arguments !! "top_k" = None →
  call_tool config "search" arguments w
  = call_tool config "search" (<["top_k" := VInt 5]> arguments) w.
Proof.
  intros Hk. unfold call_tool, try_except, call_tool_body. cbn.
  unfold tool_search, getitem, dict_get.
  rewrite lookup_insert_ne by done. rewrite lookup_insert_eq, Hk. done.
Qed.

Lemma search_default_top_k_witness :
  call_tool example_config "search" (<["text" := VStr "meeting notes"]> ∅) world_ready
  = call_tool example_config "search"
      (<["top_k" := VInt 5]> (<["text" := VStr "meeting notes"]> ∅)) world_ready.
Proof.
  apply (search_default_top_k example_config (<["text" := VStr "meeting notes"]> ∅)
           world_ready).
  reflexivity.
Defined.

(** ** Ranked search *)

Global Instance dist_le_total dist q : Total (dist_le dist q).
Proof.
  intros a b. unfold dist_le. rewrite !Qle_bool_iff.
  destruct (Qlt_le_dec (dist (note_embedding a) q) (dist (note_embedding b) q));
    [left; by apply Qlt_le_weak | by right].
Qed.

Global Instance dist_le_trans dist q : Transitive (dist_le dist q).
Proof.
  intros a b c. unfold dist_le. rewrite !Qle_bool_iff. apply Qle_trans.
Qed.

(** When [search_notes] returns, the embedding service had answered with a
    vector of the configured length and the rows are the store's answer for
    that vector. *)
Lemma search_notes_result (config : Config) (query_text top_k : PyVal) (w : World)
    rows w' :
  search_notes config query_text top_k w = (Ok rows, w') →
  ∃ v rest, voyage_embed w query_text = Ok (v :: rest)
            ∧ Z.of_nat (length v) = EMBEDDING_DIMENSION config
            ∧ rows = select_similar (vec_distance w) v top_k (neron w).
Proof.
  intros Hrun.
  assert (Hcases :
    (∃ e w1, search_notes config query_text top_k w = (Raise e, w1))
    ∨ (∃ v rest, voyage_embed w query_text = Ok (v :: rest)
                 ∧ Z.of_nat (length v) = EMBEDDING_DIMENSION config
                 ∧ search_notes config query_text top_k w
                   = try_with_conn
                       (conn <- get_valid_connection 3 ;; ret (conn, v))
                       (λ conn query_embedding,
                          execute conn (QSearch query_embedding top_k) ;;;
                          w <- get_world ;;
                          ret (select_similar (vec_distance w) query_embedding top_k
                                              (neron w)))
                       (log_event (EvEmbed query_text) w))).
  { unfold search_notes, try_with_conn, embed_query.
    unfold bind, reify, ret, raise, lift, get_world, emit, modify. cbv beta match.
    destruct (voyage_client w) as [client|]; [|left; by eexists _, _].
    cbv beta match. cbn [voyage_embed log_event].
    destruct (voyage_embed w query_text) as [[|v rest]|e]; cbv beta match;
      [left; by eexists _, _| |left; by eexists _, _].
    case_bool_decide as Hdim; cbv beta match; [left; by eexists _, _|].
    right. by exists v, rest. }
  destruct Hcases as [(e & w1 & He) | (v & rest & Hembed & Hdim & Hv)]; [congruence|].
  rewrite Hv in Hrun.
  apply (with_connection_spec v (λ v, QSearch v top_k)
           (λ v w, select_similar (vec_distance w) v top_k (neron w))) in Hrun
    as (evs & _ & _ & _ & _ & _ & _ & Hres); [|done].
  destruct (Hres rows eq_refl) as (w2 & (Hn & Hd & _) & ->).
  exists v, rest. repeat split; try done. cbn in Hn, Hd. by rewrite Hn, Hd.
Qed.

(** X12.  The rows [search_notes] returns for an integer [top_k] are the
    [top_k] nearest notes: they are as many as [top_k] allows and the table
    holds, each carries one minus its note's distance as similarity, they
    come in descending order of similarity, and no note left out is nearer
    to the query than a note returned. *)
Theorem search_notes_ranked (config : Config) (query_text : PyVal) (k : Z) (w : World)
    rows w' :
  search_notes config query_text (VInt k) w = (Ok rows, w') →
  ∃ v kept dropped,
    (∃ rest, voyage_embed w query_text = Ok (v :: rest))
    ∧ Z.of_nat (length v) = EMBEDDING_DIMENSION config
    ∧ kept ++ dropped ≡ₚ neron w
    ∧ rows = similar_row (vec_distance w) v <$> kept
    ∧ length rows = Nat.min (Z.to_nat k) (length (neron w))
    ∧ StronglySorted sim_ge rows
    ∧ (∀ a b, a ∈ kept → b ∈ dropped →
              (vec_distance w (note_embedding a) v <= vec_distance w (note_embedding b) v)%Q).
Proof.
  intros (v & rest & Hembed & Hdim & ->)%search_notes_result.
  set (sorted := merge_sort (dist_le (vec_distance w) v) (neron w)).
  assert (Hsorted : StronglySorted (dist_le (vec_distance w) v) sorted)
    by apply (StronglySorted_merge_sort _).
  assert (Hperm : sorted ≡ₚ neron w) by apply merge_sort_Permutation.
  rewrite <-(take_drop (Z.to_nat k) sorted) in Hsorted, Hperm.
  exists v, (take (Z.to_nat k) sorted), (drop (Z.to_nat k) sorted).
  split; [by eexists|]. split; [done|]. split; [done|]. split; [done|].
  split; [|split].
  - unfold select_similar, limit. rewrite length_fmap, length_take.
    fold sorted. by rewrite <-(Permutation_length Hperm), take_drop.
  - apply (StronglySorted_fmap _ (dist_le (vec_distance w) v)).
    + intros a b Hab. unfold sim_ge, dist_le in *. cbn.
      apply Qle_bool_iff in Hab.
      apply Qplus_le_compat; [apply Qle_refl|by apply Qopp_le_compat].
    + by eapply StronglySorted_app_1_l.
  - intros a b Ha Hb. apply Qle_bool_iff.
    by apply (StronglySorted_app_1_elem_of _ _ _ a b Hsorted).
Qed.

Lemma search_notes_ranked_witness :
  ∃ rows, (search_notes example_config (VStr "meeting notes") (VInt 2) world_ready).1 = Ok rows
          ∧ length rows = 2%nat.
Proof.
  destruct (search_notes example_config (VStr "meeting notes") (VInt 2) world_ready)
    as [r w'] eqn:Hrun.
  assert (Hok : ∃ rows, r = Ok rows).
  { assert (r = (search_notes example_config (VStr "meeting notes") (VInt 2) world_ready).1)
      as -> by by rewrite Hrun.
    vm_compute. by eexists. }
  destruct Hok as [rows ->]. exists rows. split; [done|].
  destruct (search_notes_ranked example_config (VStr "meeting notes") 2 world_ready rows w' Hrun)
    as (v & kept & dropped & _ & _ & _ & _ & Hlen & _).
  exact Hlen.
Defined.

(** ** The pool stays consistent *)

Lemma serving_frame (w w' : World) :
  connection_pool w' = connection_pool w → next_conn w' = next_conn w →
  conn_closed w' = conn_closed w → serving w → serving w'.
Proof.
  intros Hp Hn Hc (p & Hpool & Hopen & [? ? ? ? ?]).
  exists p. rewrite Hp. repeat split; try done; rewrite ?Hn, ?Hc; done.
Qed.

Lemma preserves_ret {A} (I : World → Prop) (a : A) : preserves I (ret a).
Proof. by intros w. Qed.

Lemma preserves_raise {A} (I : World → Prop) (e : exn) : preserves I (@raise A e).
Proof. by intros w. Qed.

Lemma preserves_lift {A} (I : World → Prop) (r : result A) : preserves I (lift r).
Proof. by intros w. Qed.

Lemma preserves_bind {A B} (I : World → Prop) (m : M A) (k : A → M B) :
  preserves I m → (∀ a, preserves I (k a)) → preserves I (bind m k).
Proof.
  intros Hm Hk w Hw. unfold bind. specialize (Hm w Hw).
  destruct (m w) as [[a|e] w1]; [by apply Hk|done].
Qed.

Lemma preserves_reify {A} (I : World → Prop) (m : M A) :
  preserves I m → preserves I (reify m).
Proof. intros Hm w Hw. unfold reify. specialize (Hm w Hw). by destruct (m w). Qed.

Lemma preserves_try_except {A} (I : World → Prop) (m : M A) (h : exn → M A) :
  preserves I m → (∀ e, preserves I (h e)) → preserves I (try_except m h).
Proof.
  intros Hm Hh w Hw. unfold try_except. specialize (Hm w Hw).
  destruct (m w) as [[a|e] w1]; [done|by apply Hh].
Qed.

Lemma preserves_get_world {A} (I : World → Prop) (k : World → M A) :
  (∀ w0, preserves I (k w0)) → preserves I (bind get_world k).
Proof. intros Hk w Hw. unfold bind, get_world. by apply Hk. Qed.

Lemma serving_emit (e : Event) : preserves serving (emit e).
Proof. intros w Hw. by apply (serving_frame w). Qed.

Lemma serving_round_trip : preserves serving round_trip.
Proof.
  intros w Hw. unfold round_trip.
  destruct (net_script w) as [|[e|] rest]; by apply (serving_frame w).
Qed.

Lemma serving_execute (conn : nat) (q : Query) : preserves serving (execute conn q).
Proof.
  unfold execute. apply preserves_try_except.
  - apply preserves_get_world. intros w0.
    apply preserves_bind; [case_bool_decide; by intros w|]. intros _.
    apply preserves_bind; [apply serving_round_trip|]. intros _.
    apply preserves_bind; [apply preserves_lift|]. intros _. apply serving_emit.
  - intros e. apply preserves_bind; [apply serving_emit|]. intros _.
    apply preserves_raise.
Qed.

Lemma size_add_fresh (c : nat) (s : gset nat) : c ∉ s → size ({[c]} ∪ s) = S (size s).
Proof. intros Hc. rewrite size_union by set_solver. by rewrite size_singleton. Qed.

Lemma size_remove (c : nat) (s : gset nat) : c ∈ s → S (size (s ∖ {[c]})) = size s.
Proof.
  intros Hc. rewrite <-(size_add_fresh c) by set_solver.
  f_equal. apply set_eq. intros x. destruct (decide (x = c)); set_solver.
Qed.

Lemma pool_wf_frame (w w' : World) (p : Pool) :
  next_conn w' = next_conn w → conn_closed w' = conn_closed w →
  pool_wf w p → pool_wf w' p.
Proof. intros Hn Hc [? ? ? ? ?]. constructor; rewrite ?Hn, ?Hc; done. Qed.

(** A new connection joins an empty idle list's pool as checked out. *)
Lemma pool_wf_connect (w w' : World) (p : Pool) :
  pool_wf w p → pool_idle p = [] → Z.of_nat (size (pool_used p)) ≠ maxconn p →
  next_conn w' = S (next_conn w) → conn_closed w' = conn_closed w →
  (next_conn w ∉ pool_used p)
  ∧ pool_wf w' (mkPool (minconn p) (maxconn p) false []
                       ({[next_conn w]} ∪ pool_used p)).
Proof.
  intros [Hnodup Hdisj Hknown Hacc Hbound] Hidle Hfull Hn Hc.
  rewrite Hidle in *.
  assert (Hfresh : next_conn w ∉ pool_used p).
  { intros Hin. specialize (Hknown (next_conn w) (or_intror Hin)). lia. }
  split; [done|]. constructor; cbn; rewrite ?Hn, ?Hc.
  - constructor.
  - intros c Hin. by apply elem_of_nil in Hin.
  - intros c [Hin|Hin]; [by apply elem_of_nil in Hin|].
    apply elem_of_union in Hin as [->%elem_of_singleton|Hin]; [lia|].
    specialize (Hknown c (or_intror Hin)). lia.
  - intros c Hlt. destruct (decide (c = next_conn w)) as [->|Hne].
    + right; left. clear. set_solver.
    + destruct (Hacc c) as [Hi|[Hu|Hcl]]; [lia| | |by right; right].
      * by apply elem_of_nil in Hi.
      * right; left. clear -Hu. set_solver.
  - rewrite size_add_fresh by done. cbn in Hbound. lia.
Qed.

(** An idle connection becomes checked out. *)
Lemma pool_wf_pop (w w' : World) (p : Pool) (c : nat) (rest : list nat) :
  pool_wf w p → pool_idle p = c :: rest →
  next_conn w' = next_conn w → conn_closed w' = conn_closed w →
  (c ∉ pool_used p)
  ∧ pool_wf w' (mkPool (minconn p) (maxconn p) false rest ({[c]} ∪ pool_used p)).
Proof.
  intros [Hnodup Hdisj Hknown Hacc Hbound] Hidle Hn Hc.
  rewrite Hidle in *.
  assert (Hfresh : c ∉ pool_used p) by (apply Hdisj; left).
  apply NoDup_cons in Hnodup as [Hnotin Hnodup].
  split; [done|]. constructor; cbn; rewrite ?Hn, ?Hc.
  - done.
  - intros c' Hin. apply not_elem_of_union. split.
    + intros ->%elem_of_singleton. done.
    + apply Hdisj. by right.
  - intros c' [Hin|Hin]; apply Hknown; [left; by right|].
    apply elem_of_union in Hin as [->%elem_of_singleton|Hin]; [left; left|by right].
  - intros c' Hlt. destruct (Hacc c' Hlt) as [Hi|[Hu|Hcl]].
    + apply elem_of_cons in Hi as [->|Hi]; [|by left].
      right; left. clear. set_solver.
    + right; left. clear -Hu. set_solver.
    + by right; right.
  - rewrite size_add_fresh by done. cbn in Hbound. lia.
Qed.

Lemma getconn_wf (p : Pool) (w : World) r w' :
  connection_pool w = Some p → pool_closed p = false → pool_wf w p →
  getconn p w = (r, w') →
  ∃ p', connection_pool w' = Some p' ∧ pool_closed p' = false ∧ pool_wf w' p'
        ∧ ∀ conn, r = Ok conn → (conn ∉ pool_used p) ∧ conn ∈ pool_used p'.
Proof.
  intros Hp Hopen Hwf.
  unfold getconn, connect, round_trip.
  unfold bind, ret, raise, get_world, emit, modify, update_pool.
  cbv beta match. rewrite Hopen. cbv beta match.
  destruct (pool_idle p) as [|c rest] eqn:Hidle.
  - destruct (Z.of_nat (size (pool_used p)) =? maxconn p) eqn:Hfull; cbv beta match.
    { intros [= <- <-]. by exists p. }
    apply Z.eqb_neq in Hfull.
    destruct (net_script w) as [|[e|] script]; cbv beta match; intros [= <- <-].
    + eexists. split; [reflexivity|]. split; [done|].
      match goal with
      | |- pool_wf ?w1 _ ∧ _ =>
          destruct (pool_wf_connect w w1 p Hwf Hidle Hfull eq_refl eq_refl)
            as [Hfresh Hwf']
      end.
      split; [exact Hwf'|]. intros conn [= <-]. split; [done|]. cbn. clear. set_solver.
    + exists p. split; [done|]. split; [done|]. split; [|done].
      by apply (pool_wf_frame w).
    + eexists. split; [reflexivity|]. split; [done|].
      match goal with
      | |- pool_wf ?w1 _ ∧ _ =>
          destruct (pool_wf_connect w w1 p Hwf Hidle Hfull eq_refl eq_refl)
            as [Hfresh Hwf']
      end.
      split; [exact Hwf'|]. intros conn [= <-]. split; [done|]. cbn. clear. set_solver.
  - intros [= <- <-].
    eexists. split; [reflexivity|]. split; [done|].
    match goal with
    | |- pool_wf ?w1 _ ∧ _ =>
        destruct (pool_wf_pop w w1 p c rest Hwf Hidle eq_refl eq_refl)
          as [Hfresh Hwf']
    end.
    split; [exact Hwf'|]. intros conn [= <-]. split; [done|]. cbn. clear. set_solver.
Qed.

(** A checked-out connection is handed back: kept idle, or dropped. *)
Lemma pool_wf_put (w w' : World) (p : Pool) (c : nat) (keep : bool) :
  pool_wf w p → c ∈ pool_used p →
  next_conn w' = next_conn w →
  (if keep then conn_closed w' = conn_closed w ∧ c ∉ conn_closed w
   else c ∈ conn_closed w' ∧ conn_closed w ⊆ conn_closed w') →
  pool_wf w' (mkPool (minconn p) (maxconn p) false
                     (if keep then c :: pool_idle p else pool_idle p)
                     (pool_used p ∖ {[c]})).
Proof.
  intros [Hnodup Hdisj Hknown Hacc Hbound] Hin Hn Hc.
  assert (Hnotidle : c ∉ pool_idle p) by (intros Hi; by apply (Hdisj c Hi)).
  pose proof (size_remove c (pool_used p) Hin) as Hsize.
  constructor; cbn; rewrite ?Hn.
  - destruct keep; [by apply NoDup_cons|done].
  - intros c' Hi. apply not_elem_of_difference.
    destruct keep.
    + apply elem_of_cons in Hi as [->|Hi]; [right; by apply elem_of_singleton|].
      left. by apply Hdisj.
    + left. by apply Hdisj.
  - intros c' [Hi|Hu]; apply Hknown.
    + destruct keep; [|by left].
      apply elem_of_cons in Hi as [->|Hi]; [by right|by left].
    + right. clear -Hu. set_solver.
  - intros c' Hlt. destruct (decide (c' = c)) as [->|Hne].
    + destruct keep; [left; by left|]. right; right. by destruct Hc.
    + destruct (Hacc c' Hlt) as [Hi|[Hu|Hcl]].
      * left. destruct keep; [by right|done].
      * right; left. clear -Hu Hne. set_solver.
      * right; right. destruct keep; [destruct Hc as [-> _]; done|]. by apply (proj2 Hc).
  - destruct keep; cbn; cbn in Hbound; lia.
Qed.

Lemma putconn_wf (p : Pool) (conn : nat) (close : bool) (w : World) r w' :
  connection_pool w = Some p → pool_closed p = false → pool_wf w p →
  putconn p conn close w = (r, w') →
  ∃ p', connection_pool w' = Some p' ∧ pool_closed p' = false ∧ pool_wf w' p'.
Proof.
  intros Hp Hopen Hwf. unfold putconn, conn_close.
  unfold bind, ret, raise, get_world, emit, modify, update_pool.
  cbv beta match. rewrite Hopen. cbv beta match.
  case_bool_decide as Hin; cbn [negb]; cbv beta match.
  2:{ intros [= <- <-]. by exists p. }
  destruct ((Z.of_nat (length (pool_idle p)) <? minconn p) && negb close) eqn:Hkeep;
    cbv beta match.
  - case_bool_decide as Hcl; cbn [andb negb]; intros [= <- <-];
      (eexists; split; [reflexivity|]; split; [done|]).
    + (* the connection is closed already: it is dropped *)
      apply (pool_wf_put w _ p conn false Hwf Hin); [done|]. by split.
    + apply (pool_wf_put w _ p conn true Hwf Hin); [done|]. by split.
  - cbn [andb]. intros [= <- <-].
    eexists; split; [reflexivity|]; split; [done|].
    apply (pool_wf_put w _ p conn false Hwf Hin); [done|].
    cbn. split; clear; set_solver.
Qed.

Lemma serving_get_connection : preserves serving get_connection.
Proof.
  intros w (p & Hp & Hopen & Hwf).
  unfold get_connection. unfold bind at 1, reify at 1, bind at 1, get_world at 1.
  rewrite Hp. destruct (getconn p w) as [r w1] eqn:Hget.
  destruct (getconn_wf p w r w1 Hp Hopen Hwf Hget) as (p' & Hp' & Hopen' & Hwf' & _).
  assert (Hw1 : serving w1) by by exists p'.
  unfold bind, emit, modify, lift. cbn.
  by apply (serving_frame w1).
Qed.

Lemma serving_return_connection (conn : nat) (close : bool) :
  preserves serving (return_connection conn close).
Proof.
  intros w (p & Hp & Hopen & Hwf).
  unfold return_connection, bind, get_world. rewrite Hp.
  replace (if close then putconn p conn true else putconn p conn false)
    with (putconn p conn close) by (by destruct close).
  destruct (putconn p conn close w) as [r w1] eqn:Hput.
  destruct (putconn_wf p conn close w r w1 Hp Hopen Hwf Hput) as (p' & ? & ? & ?).
  by exists p'.
Qed.

Lemma serving_get_valid_connection (max_retries : Z) :
  preserves serving (get_valid_connection max_retries).
Proof.
  unfold get_valid_connection. generalize (py_range max_retries) as attempts.
  induction attempts as [|attempt rest IH]; [apply preserves_raise|].
  cbn [get_valid_connection_loop].
  assert (Hfailed : ∀ conn e,
             preserves serving
               (attempt_failed max_retries attempt conn e
                  (get_valid_connection_loop max_retries rest))).
  { intros conn e. unfold attempt_failed. apply preserves_bind.
    - destruct conn; [|apply preserves_ret].
      apply preserves_try_except; [apply serving_return_connection|].
      intros _. apply preserves_ret.
    - intros _. destruct (attempt =? max_retries - 1); [apply preserves_raise|apply IH]. }
  apply preserves_bind; [apply preserves_reify, serving_get_connection|].
  intros [conn|e]; [|apply Hfailed].
  apply preserves_bind; [apply preserves_reify, serving_execute|].
  intros [[]|e]; [apply preserves_ret|apply Hfailed].
Qed.

Lemma serving_try_with_conn {A B} (acquire : M (nat * B)) (query : nat → B → M A) :
  preserves serving acquire → (∀ conn b, preserves serving (query conn b)) →
  preserves serving (try_with_conn acquire query).
Proof.
  intros Hacq Hquery. unfold try_with_conn.
  apply preserves_bind; [by apply preserves_reify|].
  intros [[conn b]|e]; [|apply preserves_raise].
  apply preserves_bind; [by apply preserves_reify|].
  intros [results|e]; (apply preserves_bind; [apply serving_return_connection|]);
    intros _; [apply preserves_ret|apply preserves_raise].
Qed.

Lemma serving_query (conn : nat) (q : Query) {A} (res : World → A) :
  preserves serving (execute conn q ;;; w <- get_world ;; ret (res w)).
Proof.
  apply preserves_bind; [apply serving_execute|]. intros _.
  apply preserves_get_world. intros w0. apply preserves_ret.
Qed.

Lemma serving_acquire {B} (b : B) :
  preserves serving (conn <- get_valid_connection 3 ;; ret (conn, b)).
Proof.
  apply preserves_bind; [apply serving_get_valid_connection|].
  intros conn. apply preserves_ret.
Qed.

Lemma serving_get_notes_by_day (target_date : date) :
  preserves serving (get_notes_by_day target_date).
Proof.
  apply serving_try_with_conn; [apply serving_acquire|].
  intros conn _. apply serving_query.
Qed.

Lemma serving_get_all_notes : preserves serving get_all_notes.
Proof.
  apply serving_try_with_conn; [apply serving_acquire|].
  intros conn _. apply serving_query.
Qed.

Lemma serving_search_notes (config : Config) (query_text top_k : PyVal) :
  preserves serving (search_notes config query_text top_k).
Proof.
  apply serving_try_with_conn.
  - apply preserves_bind.
    + unfold embed_query. apply preserves_get_world. intros w0.
      destruct (voyage_client w0); [|apply preserves_raise].
      apply preserves_bind; [apply serving_emit|]. intros _.
      apply preserves_bind; [apply preserves_lift|].
      intros [|v rest]; [apply preserves_raise|apply preserves_ret].
    + intros v. apply preserves_bind.
      * case_bool_decide; [apply preserves_raise|apply preserves_ret].
      * intros _. apply serving_acquire.
  - intros conn v. apply serving_query.
Qed.

Lemma serving_call_tool (config : Config) (name : string) (arguments : gmap string PyVal) :
  preserves serving (call_tool config name arguments).
Proof.
  unfold call_tool. apply preserves_try_except; [|intros e; apply preserves_ret].
  unfold call_tool_body. repeat case_bool_decide.
  - unfold tool_get_notes_per_day, getitem. apply preserves_bind.
    { destruct (arguments !! "day"); [apply preserves_ret|apply preserves_raise]. }
    intros day_str. destruct (strptime_date day_str) as [target_date|[cls m c]].
    + apply preserves_bind; [apply serving_get_notes_by_day|].
      intros [|row rows]; apply preserves_ret.
    + destruct cls; apply preserves_ret || apply preserves_raise.
  - unfold tool_get_all_notes.
    apply preserves_bind; [apply serving_get_all_notes|].
    intros [|row rows]; apply preserves_ret.
  - unfold tool_search, getitem. apply preserves_bind.
    { destruct (arguments !! "text"); [apply preserves_ret|apply preserves_raise]. }
    intros query_text. apply preserves_bind; [apply preserves_lift|].
    intros [|]; [apply preserves_ret|].
    apply preserves_bind; [apply serving_search_notes|].
    intros [|row rows]; apply preserves_ret.
  - apply preserves_ret.
Qed.

(** ** Startup and shutdown *)

Lemma connect_next (w : World) r w' :
  connect w = (r, w') →
  connection_pool w' = connection_pool w ∧ conn_closed w' = conn_closed w ∧
  voyage_client w' = voyage_client w ∧
  match r with
  | Ok conn => conn = next_conn w ∧ next_conn w' = S (next_conn w)
  | Raise _ => next_conn w' = next_conn w
  end.
Proof.
  unfold connect, round_trip. unfold bind, ret, get_world, modify, emit.
  destruct (net_script w) as [|[e|] rest]; cbv beta match; by intros [= <- <-].
Qed.

Lemma open_idle_spec (n : nat) (acc : list nat) (w : World) r w' :
  open_idle n acc w = (r, w') →
  connection_pool w' = connection_pool w ∧ conn_closed w' = conn_closed w ∧
  voyage_client w' = voyage_client w ∧
  ∀ opened, r = Ok opened →
            opened = reverse (seq (next_conn w) n) ++ acc ∧
            next_conn w' = (next_conn w + n)%nat.
Proof.
  revert acc w. induction n as [|n IH]; intros acc w.
  - cbn. intros [= <- <-]. split; [done|]. split; [done|]. split; [done|].
    intros opened [= <-]. split; [done|lia].
  - cbn [open_idle]. unfold bind at 1.
    destruct (connect w) as [[conn|e] w1] eqn:Hconn;
      apply connect_next in Hconn as (Hpool & Hclosed & Hclient & Hconn).
    + destruct Hconn as [-> Hn1]. intros Hrun.
      apply IH in Hrun as (Hp & Hc & Hv & Hres).
      split; [congruence|]. split; [congruence|]. split; [congruence|].
      intros opened Hopened. destruct (Hres opened Hopened) as [-> ->].
      rewrite Hn1. split; [|lia].
      cbn [seq]. rewrite reverse_cons, <-app_assoc. done.
    + intros [= <- <-]. by repeat split.
Qed.

Lemma initialize_pool_serving_aux (config : Config) (w w' : World) :
  fresh_process w →
  0 ≤ DB_MIN_CONNECTIONS config ≤ DB_MAX_CONNECTIONS config →
  initialize_pool config w = (Ok tt, w') →
  serving w'
  ∧ ∃ p, connection_pool w' = Some p
         ∧ length (pool_idle p) = Z.to_nat (DB_MIN_CONNECTIONS config)
         ∧ pool_used p = ∅
         ∧ minconn p = DB_MIN_CONNECTIONS config
         ∧ maxconn p = DB_MAX_CONNECTIONS config
         ∧ voyage_client w' = VOYAGE_API_KEY config
         ∧ is_Some (voyage_client w').
Proof.
  intros [Hnone Hfresh] Hbounds.
  unfold initialize_pool, try_except, ThreadedConnectionPool.
  unfold bind at 1, bind at 1.
  destruct (open_idle (Z.to_nat (DB_MIN_CONNECTIONS config)) [] w)
    as [[opened|e] w1] eqn:Hopen; [|discriminate].
  apply open_idle_spec in Hopen as (Hp1 & Hc1 & Hv1 & Hres).
  destruct (Hres opened eq_refl) as [-> Hn1]. rewrite app_nil_r.
  unfold ret at 1, bind at 1, modify at 1, bind at 1, voyageai_Client.
  destruct (VOYAGE_API_KEY config) as [key|]; [|discriminate].
  case_bool_decide; [discriminate|].
  unfold ret, modify. intros [= <-].
  set (p := mkPool (DB_MIN_CONNECTIONS config) (DB_MAX_CONNECTIONS config) false
                   (reverse (seq (next_conn w) (Z.to_nat (DB_MIN_CONNECTIONS config)))) ∅).
  assert (Hwf : ∀ w2, next_conn w2 = next_conn w1 → conn_closed w2 = conn_closed w1 →
                      pool_wf w2 p).
  { intros w2 Hn2 Hc2. constructor; cbn; rewrite ?Hn2, ?Hc2, ?Hn1, ?Hc1.
    - rewrite reverse_Permutation. apply NoDup_seq.
    - intros c _. apply not_elem_of_empty.
    - intros c [Hc|Hc]; [|by apply elem_of_empty in Hc].
      apply elem_of_reverse, elem_of_seq in Hc. lia.
    - intros c Hc. destruct (decide (c < next_conn w)%nat) as [Hlt|Hge].
      + right; right. by apply Hfresh.
      + left. apply elem_of_reverse, elem_of_seq. lia.
    - rewrite length_reverse, length_seq, size_empty. lia. }
  split.
  - exists p. split; [done|]. split; [done|]. by apply Hwf.
  - exists p. cbn. rewrite length_reverse, length_seq.
    split; [done|]. split; [done|]. split; [done|]. split; [done|].
    split; [done|]. split; [done|]. by eexists.
Qed.

(** X13.  When [initialize_pool] succeeds in a process that holds no open
    connection, with [0 <= DB_MIN_CONNECTIONS <= DB_MAX_CONNECTIONS], the
    process is serving: the pool is open and consistent, holds
    [DB_MIN_CONNECTIONS] idle connections and none checked out, and the
    embedding client carries the configured key. *)
Theorem initialize_pool_serving (config : Config) (w w' : World) :
  fresh_process w →
  0 ≤ DB_MIN_CONNECTIONS config ≤ DB_MAX_CONNECTIONS config →
  initialize_pool config w = (Ok tt, w') →
  serving w'
  ∧ ∃ p, connection_pool w' = Some p
         ∧ length (pool_idle p) = Z.to_nat (DB_MIN_CONNECTIONS config)
         ∧ pool_used p = ∅
         ∧ minconn p = DB_MIN_CONNECTIONS config
         ∧ maxconn p = DB_MAX_CONNECTIONS config
         ∧ voyage_client w' = VOYAGE_API_KEY config
         ∧ is_Some (voyage_client w').
Proof. apply initialize_pool_serving_aux. Qed.

Lemma world_start_fresh (script : list (option exn)) : fresh_process (world_start script).
Proof. split; [done|]. intros c Hc. cbn in Hc. lia. Qed.

Lemma world_ready_serving : serving world_ready.
Proof.
  apply (initialize_pool_serving_aux example_config (world_start []) world_ready).
  - apply world_start_fresh.
  - cbn. lia.
  - reflexivity.
Qed.

Lemma initialize_pool_serving_witness :
  serving world_ready
  ∧ ∃ p, connection_pool world_ready = Some p
         ∧ length (pool_idle p) = Z.to_nat (DB_MIN_CONNECTIONS example_config)
         ∧ pool_used p = ∅
         ∧ minconn p = DB_MIN_CONNECTIONS example_config
         ∧ maxconn p = DB_MAX_CONNECTIONS example_config
         ∧ voyage_client world_ready = VOYAGE_API_KEY example_config
         ∧ is_Some (voyage_client world_ready).
Proof.
  apply (initialize_pool_serving example_config (world_start []) world_ready).
  - apply world_start_fresh.
  - cbn. lia.
  - reflexivity.
Defined.

(** X14.  While the process is serving, a connection that [get_connection]
    hands out was not checked out before and is counted as checked out
    afterwards: no connection is lent to two callers at once. *)
Theorem get_connection_exclusive (w : World) (conn : nat) (w' : World) :
  serving w → get_connection w = (Ok conn, w') →
  (conn ∉ used_of w) ∧ conn ∈ used_of w' ∧ serving w'.
Proof.
  intros (p & Hp & Hopen & Hwf).
  unfold get_connection. unfold bind at 1, reify at 1, bind at 1, get_world at 1.
  rewrite Hp. destruct (getconn p w) as [r w1] eqn:Hget.
  destruct (getconn_wf p w r w1 Hp Hopen Hwf Hget) as (p' & Hp' & Hopen' & Hwf' & Hconn).
  unfold bind, emit, modify, lift. cbn. intros [= -> <-].
  destruct (Hconn conn eq_refl) as [Hbefore Hafter].
  unfold used_of. cbn. rewrite Hp, Hp'. split; [done|]. split; [done|].
  apply (serving_frame w1); try done. by exists p'.
Qed.

Lemma get_connection_exclusive_witness :
  (1%nat ∉ used_of world_ready)
  ∧ 1%nat ∈ used_of (get_connection world_ready).2
  ∧ serving (get_connection world_ready).2.
Proof.
  apply (get_connection_exclusive world_ready 1 (get_connection world_ready).2).
  - apply world_ready_serving.
  - reflexivity.
Defined.

(** X15.  Every operation of the connector, and every tool call, keeps the
    pool open and consistent; so at every point the pool counts at most
    [maxconn] connections as idle or checked out. *)
Theorem operations_keep_pool_consistent (config : Config) :
  preserves serving get_connection
  ∧ (∀ conn close, preserves serving (return_connection conn close))
  ∧ (∀ max_retries, preserves serving (get_valid_connection max_retries))
  ∧ (∀ target_date, preserves serving (get_notes_by_day target_date))
  ∧ preserves serving get_all_notes
  ∧ (∀ query_text top_k, preserves serving (search_notes config query_text top_k))
  ∧ (∀ name arguments, preserves serving (call_tool config name arguments))
  ∧ (∀ w p, serving w → connection_pool w = Some p →
            Z.of_nat (size (pool_used p)) ≤ maxconn p
            ∧ pool_used p ## list_to_set (pool_idle p)).
Proof.
  split; [apply serving_get_connection|].
  split; [apply serving_return_connection|].
  split; [apply serving_get_valid_connection|].
  split; [apply serving_get_notes_by_day|].
  split; [apply serving_get_all_notes|].
  split; [apply serving_search_notes|].
  split; [apply serving_call_tool|].
  intros w p (p' & Hp' & _ & [Hnodup Hdisj Hknown Hacc Hbound]) Hp.
  assert (p' = p) as -> by congruence. split; [lia|].
  intros c Hu Hi. apply elem_of_list_to_set in Hi. by apply (Hdisj c).
Qed.

(** ** The lifespan of the server *)

Lemma serve_ok (config : Config) (calls : list (string * gmap string PyVal)) (w : World) :
  ∃ w', serve config calls w = (Ok tt, w').
Proof.
  revert w. induction calls as [|[name arguments] calls IH]; intros w; [by eexists|].
  cbn [serve]. unfold bind.
  destruct (call_tool_body config name arguments w) as [[r|e] w1] eqn:Hbody.
  - unfold call_tool, try_except. rewrite Hbody. apply IH.
  - rewrite (call_tool_raise _ _ _ _ _ _ Hbody). apply IH.
Qed.

Lemma serving_serve (config : Config) (calls : list (string * gmap string PyVal)) :
  preserves serving (serve config calls).
Proof.
  induction calls as [|[name arguments] calls IH]; [apply preserves_ret|].
  cbn [serve]. apply preserves_bind; [apply serving_call_tool|]. by intros _.
Qed.

(** Shutting down a serving process closes every connection it opened. *)
Lemma close_pool_serving (w : World) :
  serving w →
  ∃ w' p', close_pool w = (Ok tt, w') ∧ connection_pool w' = Some p'
           ∧ pool_closed p' = true
           ∧ next_conn w' = next_conn w
           ∧ ∀ c, (c < next_conn w')%nat → c ∈ conn_closed w'.
Proof.
  intros (p & Hp & Hopen & [Hnodup Hdisj Hknown Hacc Hbound]).
  unfold close_pool, closeall.
  unfold bind, ret, raise, get_world, modify, update_pool, emit. cbv beta match.
  rewrite Hp, Hopen. cbv beta match.
  eexists _, _. split; [reflexivity|]. cbn.
  split; [done|]. split; [done|]. split; [done|].
  intros c Hc. destruct (Hacc c Hc) as [Hi|[Hu|Hcl]].
  - apply elem_of_union_l, elem_of_union_l. by apply elem_of_list_to_set.
  - by apply elem_of_union_l, elem_of_union_r.
  - by apply elem_of_union_r.
Qed.

(** X16.  The lifespan leaks no connection: started in a process that holds
    no open connection, once [initialize_pool] has succeeded the server
    answers every tool call, shuts down without error, and leaves every
    connection it ever opened closed and the pool closed. *)
Theorem lifespan_closes_every_connection (config : Config)
    (calls : list (string * gmap string PyVal)) (w w1 : World) :
  fresh_process w →
  0 ≤ DB_MIN_CONNECTIONS config ≤ DB_MAX_CONNECTIONS config →
  initialize_pool config w = (Ok tt, w1) →
  ∃ w' p', lifespan config calls w = (Ok tt, w')
           ∧ connection_pool w' = Some p' ∧ pool_closed p' = true
           ∧ ∀ c, (c < next_conn w')%nat → c ∈ conn_closed w'.
Proof.
  intros Hfresh Hbounds Hinit.
  destruct (initialize_pool_serving_aux config w w1 Hfresh Hbounds Hinit) as [Hw1 _].
  destruct (serve_ok config calls w1) as [w2 Hserve].
  assert (Hw2 : serving w2).
  { pose proof (serving_serve config calls w1 Hw1) as H. by rewrite Hserve in H. }
  destruct (close_pool_serving w2 Hw2) as (w' & p' & Hclose & Hp' & Hcl & _ & Hall).
  exists w', p'. split; [|done].
  unfold lifespan. unfold bind at 1. rewrite Hinit.
  unfold bind. by rewrite Hserve.
Qed.

Lemma lifespan_closes_every_connection_witness :
  ∃ w' p',
    lifespan example_config
      [("get_all_notes", ∅); ("search", <["text" := VStr "meeting notes"]> ∅)]
      (world_start [None; None; Some connection_lost]) = (Ok tt, w')
    ∧ connection_pool w' = Some p' ∧ pool_closed p' = true
    ∧ ∀ c, (c < next_conn w')%nat → c ∈ conn_closed w'.
Proof.
  apply (lifespan_closes_every_connection example_config
           [("get_all_notes", ∅); ("search", <["text" := VStr "meeting notes"]> ∅)]
           (world_start [None; None; Some connection_lost])
           (initialize_pool example_config
              (world_start [None; None; Some connection_lost])).2).
  - apply world_start_fresh.
  - cbn. lia.
  - reflexivity.
Defined.

(** ** Discovery *)

(** X4.  Discovery is routed and cannot answer.  The two well-known paths
    lead, for [GET] and for [HEAD], to [oauth_metadata] and
    [resource_metadata], and the refusal of the gate is meant to point at
    the second of them; but all three read [config.SERVER_DOMAIN], which
    [config.py] does not define, so under every configuration and for every
    request both handlers raise [AttributeError], and so does the gate
    whenever it turns a request away.  The endpoint that ends the handshake
    does not read the name and answers. *)
Theorem discovery_unavailable (config : Config) (request : Request) :
  let missing :=
    Exn AttributeError "module 'config' has no attribute 'SERVER_DOMAIN'" None in
  (∀ method, method ∈ ["GET"; "HEAD"] →
     route_in routes method "/.well-known/oauth-authorization-server"
     = Some ep_oauth_metadata
     ∧ route_in routes method "/.well-known/oauth-protected-resource"
       = Some ep_resource_metadata)
  ∧ oauth_metadata config request = Raise missing
  ∧ resource_metadata config request = Raise missing
  ∧ (verify_token config request = false → handle_mcp config request = Raise missing)
  ∧ is_Some (json_field "access_token" (token_exchange config request)).
Proof.
  cbn zeta. split; [|split; [reflexivity|split; [reflexivity|split]]].
  - intros method Hin.
    repeat (apply elem_of_cons in Hin as [->|Hin]); [| |by apply elem_of_nil in Hin];
      (split; reflexivity).
  - intros Hno. unfold handle_mcp. by rewrite Hno.
  - by eexists.
Qed.

(** ** Borrow and return *)

Lemma get_connection_idle (w : World) (p : Pool) (c : nat) (rest : list nat) :
  connection_pool w = Some p → pool_closed p = false → pool_idle p = c :: rest →
  get_connection w
  = (Ok c,
     log_event (EvGetConnection (Some c))
       (set_connection_pool
          (Some (mkPool (minconn p) (maxconn p) false rest ({[c]} ∪ pool_used p))) w)).
Proof.
  intros Hp Hopen Hidle. unfold get_connection, getconn.
  unfold bind, reify, ret, lift, get_world, emit, modify, update_pool. cbv beta match.
  rewrite Hp, Hopen, Hidle. reflexivity.
Qed.

(** With an idle connection at hand, room in the idle list and no failure
    scheduled, the scoped query answers and leaves the pool, the closed
    connections and the store exactly as they were. *)
Lemma with_connection_restores {A B} (b : B) (mkq : B → Query) (res : B → World → A)
    (res_store : ∀ w1 w2, same_store w1 w2 → res b w2 = res b w1)
    (w : World) (p : Pool) (c : nat) (rest : list nat) :
  connection_pool w = Some p → pool_closed p = false → pool_idle p = c :: rest →
  c ∉ pool_used p → c ∉ conn_closed w → Z.of_nat (length rest) < minconn p →
  net_script w = [] → check_query (mkq b) = Ok tt →
  ∃ w', try_with_conn (conn <- get_valid_connection 3 ;; ret (conn, b))
          (λ conn b', execute conn (mkq b') ;;; w <- get_world ;; ret (res b' w)) w
        = (Ok (res b w), w')
        ∧ connection_pool w' = Some p ∧ conn_closed w' = conn_closed w
        ∧ net_script w' = [] ∧ same_store w w'
        ∧ trace w' = trace w ++ [EvGetConnection (Some c); EvExecute c QSelect1 None;
                                 EvExecute c (mkq b) None; EvPutconn c false].
Proof.
  intros Hp Hopen Hidle Hused Hlive Hroom Hscript Hq.
  unfold try_with_conn, get_valid_connection. change (py_range 3) with [0; 1; 2].
  unfold bind at 1, reify at 1, bind at 1.
  rewrite get_valid_connection_loop_cons, (get_connection_idle w p c rest) by done.
  rewrite execute_ok by done.
  unfold ret at 1, bind at 1, reify at 1, bind at 1.
  rewrite execute_ok by done.
  unfold bind at 2, get_world, ret at 1. cbv beta match.
  unfold bind at 1, return_connection, putconn, conn_close.
  unfold bind, ret, get_world, modify, emit, update_pool. cbn.
  rewrite bool_decide_eq_true_2 by (clear; set_solver). cbn.
  rewrite (proj2 (Z.ltb_lt _ _) Hroom). cbn.
  rewrite bool_decide_eq_false_2 by done. cbn.
  eexists. split.
  { apply f_equal2; [|reflexivity]. f_equal. apply res_store. unfold same_store. by cbn. }
  cbn.
  split.
  - f_equal. destruct p as [mn mx cl idle used]. cbn in *. subst cl idle. f_equal.
    apply set_eq. intros x. clear -Hused. set_solver.
  - split; [done|]. split; [done|]. split; [by unfold same_store|].
    by rewrite <-!app_assoc.
Qed.

(** X17.  A successful [get_all_notes] hands its connection back for reuse
    and so leaves the pool as it found it; called again with no write in
    between, it returns the same rows in the same order. *)
Theorem get_all_notes_repeatable (w : World) (p : Pool) (c : nat) (rest : list nat) :
  connection_pool w = Some p → pool_closed p = false → pool_idle p = c :: rest →
  c ∉ pool_used p → c ∉ conn_closed w → Z.of_nat (length rest) < minconn p →
  net_script w = [] →
  ∃ rows w1 w2,
    get_all_notes w = (Ok rows, w1)
    ∧ get_all_notes w1 = (Ok rows, w2)
    ∧ connection_pool w1 = Some p ∧ connection_pool w2 = Some p
    ∧ conn_closed w2 = conn_closed w
    ∧ acquisitions (drop (length (trace w)) (trace w2)) = 2%nat.
Proof.
  intros Hp Hopen Hidle Hused Hlive Hroom Hscript.
  assert (Hres : ∀ w1 w2, same_store w1 w2 →
                          select_all_notes (neron w2) = select_all_notes (neron w1))
    by (by intros w1 w2 (-> & _)).
  destruct (with_connection_restores tt (λ _, QAllNotes) (λ _ w, select_all_notes (neron w))
              Hres w p c rest) as (w1 & Hrun1 & Hp1 & Hc1 & Hs1 & Hst1 & Htr1); try done.
  destruct (with_connection_restores tt (λ _, QAllNotes) (λ _ w, select_all_notes (neron w))
              Hres w1 p c rest) as (w2 & Hrun2 & Hp2 & Hc2 & Hs2 & Hst2 & Htr2);
    try done; [by rewrite Hc1|].
  exists (select_all_notes (neron w)), w1, w2.
  split; [exact Hrun1|]. split.
  - unfold get_all_notes. rewrite Hrun2. by rewrite (Hres w w1).
  - split; [done|]. split; [done|]. split; [congruence|].
    rewrite Htr2, Htr1, <-app_assoc, drop_app_length. reflexivity.
Qed.

Lemma get_all_notes_repeatable_witness :
  ∃ rows w1 w2,
    get_all_notes world_ready = (Ok rows, w1)
    ∧ get_all_notes w1 = (Ok rows, w2)
    ∧ connection_pool w1 = Some (mkPool 2 10 false [1; 0]%nat ∅)
    ∧ connection_pool w2 = Some (mkPool 2 10 false [1; 0]%nat ∅)
    ∧ conn_closed w2 = conn_closed world_ready
    ∧ acquisitions (drop (length (trace world_ready)) (trace w2)) = 2%nat.
Proof.
  apply (get_all_notes_repeatable world_ready (mkPool 2 10 false [1; 0]%nat ∅) 1 [0%nat]);
    try reflexivity; try (cbn; lia); cbn; set_solver.
Defined.

(** What handing back a connection does to the pool, case by case. *)
Lemma return_connection_cases (w : World) (p : Pool) (conn : nat) (close : bool) :
  connection_pool w = Some p →
  if pool_closed p
  then return_connection conn close w = (Raise pool_is_closed, w)
  else if bool_decide (conn ∈ pool_used p)
  then ∃ w' p',
      return_connection conn close w = (Ok tt, w')
      ∧ connection_pool w' = Some p'
      ∧ pool_used p' = pool_used p ∖ {[conn]}
      ∧ (if (Z.of_nat (length (pool_idle p)) <? minconn p) && negb close
         then conn_closed w' = conn_closed w
              ∧ pool_idle p' = (if bool_decide (conn ∈ conn_closed w)
                                then pool_idle p else conn :: pool_idle p)
         else pool_idle p' = pool_idle p ∧ conn_closed w' = {[conn]} ∪ conn_closed w)
  else return_connection conn close w
       = (Raise (Exn PoolError "trying to put unkeyed connection" None), w).
Proof.
  intros Hp.
  assert (Hput : return_connection conn close w = putconn p conn close w).
  { unfold return_connection, bind, get_world. rewrite Hp. by destruct close. }
  rewrite !Hput. clear Hput. unfold putconn, conn_close.
  unfold bind, ret, raise, get_world, modify, emit, update_pool.
  destruct (pool_closed p) eqn:Hcl; [done|].
  case_bool_decide as Hin; cbn [negb]; [|done].
  destruct ((Z.of_nat (length (pool_idle p)) <? minconn p) && negb close) eqn:Hkeep;
    cbv beta match; eexists _, _; (split; [reflexivity|]); cbn.
  - split; [done|]. split; [done|]. split; [done|].
    by case_bool_decide.
  - by repeat split.
Qed.

(** A connection that [get_connection] hands out while the process is
    serving was not checked out before. *)
Lemma get_connection_fresh (w : World) (conn : nat) (w' : World) :
  serving w → get_connection w = (Ok conn, w') → conn ∉ used_of w.
Proof.
  intros (p & Hp & Hopen & Hwf).
  unfold get_connection. unfold bind at 1, reify at 1, bind at 1, get_world at 1.
  rewrite Hp. destruct (getconn p w) as [r w1] eqn:Hget.
  destruct (getconn_wf p w r w1 Hp Hopen Hwf Hget) as (p' & Hp' & Hopen' & Hwf' & Hconn).
  unfold bind, emit, modify, lift. cbn. intros [= -> <-].
  destruct (Hconn conn eq_refl) as [Hbefore _].
  unfold used_of. by rewrite Hp.
Qed.

(** X18.  A connection is handed back once.  When a connection borrowed
    with [get_connection] has been handed back, the pool counts exactly the
    connections as checked out that it counted before the loan; a connection
    handed back with [close=True] is closed and is not among the idle ones,
    so it cannot be lent again; and handing the same connection back a
    second time is refused with [PoolError] and changes nothing. *)
Theorem return_connection_once (w w1 w2 : World) (conn : nat) (close again : bool) :
  serving w →
  get_connection w = (Ok conn, w1) →
  return_connection conn close w1 = (Ok tt, w2) →
  used_of w2 = used_of w
  ∧ serving w2
  ∧ (close = true →
     conn ∈ conn_closed w2 ∧ ∀ p2, connection_pool w2 = Some p2 → conn ∉ pool_idle p2)
  ∧ return_connection conn again w2
    = (Raise (Exn PoolError "trying to put unkeyed connection" None), w2).
Proof.
  intros Hserving Hget Hput.
  pose proof (get_connection_fresh w conn w1 Hserving Hget) as Hfresh.
  pose proof (serving_get_connection w Hserving) as Hs1. rewrite Hget in Hs1. cbn in Hs1.
  pose proof (serving_return_connection conn close w1 Hs1) as Hs2.
  rewrite Hput in Hs2. cbn in Hs2.
  apply get_connection_spec in Hget as (_ & _ & p1 & pre & Hp1 & Hopen1 & Hin1 & Hused1 & _).
  destruct (return_connection_spec conn close w1 p1 Hp1 Hopen1 Hin1)
    as (w' & p2 & Hrun & _ & Hp2 & Hopen2 & Hused2 & _ & _ & _ & Hclose).
  rewrite Hrun in Hput. injection Hput as <-.
  split; [|split; [exact Hs2|split]].
  - unfold used_of at 1. rewrite Hp2, Hused2, Hused1.
    apply set_eq. intros x. clear -Hfresh. set_solver.
  - intros ->. destruct (Hclose eq_refl) as [Hclosed Hidle]. split; [exact Hclosed|].
    intros p2' Hp2'. assert (p2' = p2) as -> by congruence. rewrite Hidle.
    destruct Hs1 as (p1' & Hp1' & _ & Hwf1). assert (p1' = p1) as -> by congruence.
    intros Hi. by apply (wf_disjoint _ _ Hwf1 conn Hi).
  - unfold return_connection, bind, get_world. rewrite Hp2.
    replace (if again then putconn p2 conn true else putconn p2 conn false)
      with (putconn p2 conn again) by (by destruct again).
    unfold putconn. rewrite Hopen2.
    rewrite bool_decide_eq_false_2; [reflexivity|].
    rewrite Hused2. clear. set_solver.
Qed.

Lemma return_connection_once_witness :
  used_of (return_connection 1 true (get_connection world_ready).2).2 = used_of world_ready
  ∧ 1%nat ∈ conn_closed (return_connection 1 true (get_connection world_ready).2).2
  ∧ return_connection 1 false (return_connection 1 true (get_connection world_ready).2).2
    = (Raise (Exn PoolError "trying to put unkeyed connection" None),
       (return_connection 1 true (get_connection world_ready).2).2).
Proof.
  destruct (return_connection_once world_ready (get_connection world_ready).2
              (return_connection 1 true (get_connection world_ready).2).2 1 true false)
    as (Hused & _ & Hclose & Hagain);
    [apply world_ready_serving | reflexivity | reflexivity |].
  split; [exact Hused|]. split; [apply (Hclose eq_refl) | exact Hagain].
Defined.

(** ** A day's notes, end to end *)

(** X19.  In a healthy world a [get_notes_per_day] call with a date that
    parses is answered from the store: with no note on that day the text
    says so, otherwise the header gives the number of that day's notes and
    one numbered line follows for each of them, earliest first. *)
Theorem day_listing (config : Config) (arguments : gmap string PyVal)
    (day_str : string) (target_date : date) (w : World) :
  healthy w → arguments !! "day" = Some (VStr day_str) →
  strptime_date (VStr day_str) = Ok target_date →
  ∃ rows w',
    rows ≡ₚ note_row <$> filter (on_day target_date) (neron w)
    ∧ Sorted row_ts_le rows
    ∧ call_tool config "get_notes_per_day" arguments w
      = (Ok (text_content
               (if bool_decide (rows = [])
                then "No notes found for " +:+ day_str
                else join nl
                       (("Found " +:+ n2s (length (filter (on_day target_date) (neron w)))
                         +:+ " note(s) for " +:+ day_str +:+ ":" +:+ nl)
                          :: (day_line <$> enumerate_from 1 rows)))),
         w').
Proof.
  intros Hw Hday Hparse.
  destruct (get_notes_by_day_healthy target_date w Hw) as [w' Hrun].
  destruct (select_notes_by_day_spec target_date (neron w)) as [Hperm Hsorted].
  exists (select_notes_by_day target_date (neron w)), w'.
  split; [done|]. split; [done|].
  unfold call_tool, try_except, call_tool_body.
  rewrite bool_decide_eq_true_2 by done.
  unfold tool_get_notes_per_day, getitem, bind, ret. rewrite Hday, Hparse, Hrun.
  rewrite <-(length_fmap note_row), <-(Permutation_length Hperm).
  destruct (select_notes_by_day target_date (neron w)); [done|].
  by rewrite bool_decide_eq_false_2.
Qed.

Lemma day_listing_witness :
  ∃ rows w',
    rows ≡ₚ note_row <$> filter (on_day (mkDate 2024 1 15)) (neron world_ready)
    ∧ Sorted row_ts_le rows
    ∧ call_tool example_config "get_notes_per_day" (<["day" := VStr "2024-01-15"]> ∅)
        world_ready
      = (Ok (text_content
               (if bool_decide (rows = [])
                then "No notes found for " +:+ "2024-01-15"
                else join nl
                       (("Found "
                         +:+ n2s (length (filter (on_day (mkDate 2024 1 15))
                                                 (neron world_ready)))
                         +:+ " note(s) for " +:+ "2024-01-15" +:+ ":" +:+ nl)
                          :: (day_line <$> enumerate_from 1 rows)))),
         w').
Proof.
  apply (day_listing example_config (<["day" := VStr "2024-01-15"]> ∅)
           "2024-01-15" (mkDate 2024 1 15) world_ready).
  - apply world_ready_healthy.
  - reflexivity.
  - reflexivity.
Defined.

(** ** One stale connection *)

Lemma execute_fails (conn : nat) (q : Query) (w : World) (e : exn)
    (script : list (option exn)) :
  conn ∉ conn_closed w → net_script w = Some e :: script →
  execute conn q w
  = (Raise e, log_event (EvExecute conn q (Some e)) (set_net_script script w)).
Proof.
  intros Hc Hs. unfold execute, round_trip.
  unfold try_except, bind, ret, raise, lift, get_world, emit, modify. cbv beta match.
  rewrite bool_decide_eq_false_2 by done. cbv beta match. by rewrite Hs.
Qed.

Lemma execute_answers (conn : nat) (q : Query) (w : World) (script : list (option exn)) :
  conn ∉ conn_closed w → net_script w = None :: script → check_query q = Ok tt →
  execute conn q w
  = (Ok tt, log_event (EvExecute conn q None) (set_net_script script w)).
Proof.
  intros Hc Hs Hq. unfold execute, round_trip.
  unfold try_except, bind, ret, raise, lift, get_world, emit, modify. cbv beta match.
  rewrite bool_decide_eq_false_2 by done. cbv beta match. rewrite Hs. cbv beta match.
  by rewrite Hq.
Qed.

Lemma return_connection_close (conn : nat) (w : World) (p : Pool) :
  connection_pool w = Some p → pool_closed p = false → conn ∈ pool_used p →
  return_connection conn true w
  = (Ok tt,
     log_event (EvPutconn conn true)
       (set_connection_pool
          (Some (mkPool (minconn p) (maxconn p) false (pool_idle p)
                        (pool_used p ∖ {[conn]})))
          (set_conn_closed ({[conn]} ∪ conn_closed w) w))).
Proof.
  intros Hp Hopen Hin. unfold return_connection, putconn, conn_close.
  unfold bind, ret, raise, get_world, emit, modify, update_pool. cbv beta match.
  rewrite Hp, Hopen. cbv beta match.
  rewrite bool_decide_eq_true_2 by done. cbn [negb]. cbv beta match.
  rewrite andb_false_r. reflexivity.
Qed.

(** The first idle connection fails its probe, the second answers. *)
Lemma get_valid_connection_second_try (w : World) (p : Pool) (c1 c2 : nat)
    (rest : list nat) (e : exn) (script : list (option exn)) :
  connection_pool w = Some p → pool_closed p = false →
  pool_idle p = c1 :: c2 :: rest → c1 ≠ c2 →
  c1 ∉ conn_closed w → c2 ∉ conn_closed w →
  net_script w = Some e :: None :: script →
  ∃ w' p', get_valid_connection 3 w = (Ok c2, w')
           ∧ connection_pool w' = Some p' ∧ pool_closed p' = false
           ∧ pool_idle p' = rest
           ∧ pool_used p' = {[c2]} ∪ ({[c1]} ∪ pool_used p) ∖ {[c1]}
           ∧ conn_closed w' = {[c1]} ∪ conn_closed w
           ∧ net_script w' = script ∧ same_store w w'
           ∧ trace w' = trace w ++ [EvGetConnection (Some c1);
                                    EvExecute c1 QSelect1 (Some e);
                                    EvPutconn c1 true;
                                    EvGetConnection (Some c2);
                                    EvExecute c2 QSelect1 None].
Proof.
  intros Hp Hopen Hidle Hne Hlive1 Hlive2 Hscript.
  unfold get_valid_connection. change (py_range 3) with [0; 1; 2].
  rewrite get_valid_connection_loop_cons, (get_connection_idle w p c1 (c2 :: rest)) by done.
  erewrite execute_fails; [|done|exact Hscript].
  unfold attempt_failed. unfold bind at 1, try_except at 1.
  erewrite return_connection_close; [|reflexivity|reflexivity|cbn; clear; set_solver].
  change (0 =? 3 - 1) with false. cbv beta match.
  rewrite get_valid_connection_loop_cons.
  erewrite get_connection_idle; [|reflexivity|reflexivity|reflexivity].
  erewrite execute_answers;
    [|cbn; clear -Hne Hlive2; set_solver|reflexivity|reflexivity].
  eexists _, _. split; [reflexivity|]. cbn.
  split; [reflexivity|]. split; [done|]. split; [done|]. split; [done|].
  split; [done|]. split; [done|]. split; [by unfold same_store|].
  by rewrite <-!app_assoc.
Qed.

(** X20.  One stale connection does not fail a request: when the probe of
    the first idle connection fails and the next idle connection is sound,
    [get_all_notes] closes the stale one, answers from the second and hands
    that one back; the stale connection is closed and no longer checked
    out, and the checked-out set is as it was. *)
Theorem stale_connection_tolerated (w : World) (p : Pool) (c1 c2 : nat)
    (rest : list nat) (e : exn) :
  connection_pool w = Some p → pool_closed p = false →
  pool_idle p = c1 :: c2 :: rest → c1 ≠ c2 →
  c1 ∉ pool_used p → c2 ∉ pool_used p →
  c1 ∉ conn_closed w → c2 ∉ conn_closed w →
  net_script w = [Some e; None; None] →
  ∃ w' p',
    get_all_notes w = (Ok (select_all_notes (neron w)), w')
    ∧ connection_pool w' = Some p'
    ∧ c1 ∈ conn_closed w'
    ∧ pool_used p' = pool_used p
    ∧ (∀ c, c ∈ pool_idle p' → c = c2 ∨ c ∈ rest)
    ∧ acquisitions (drop (length (trace w)) (trace w')) = 2%nat.
Proof.
  intros Hp Hopen Hidle Hne Hu1 Hu2 Hlive1 Hlive2 Hscript.
  destruct (get_valid_connection_second_try w p c1 c2 rest e [None])
    as (w1 & p1 & Hget & Hp1 & Hopen1 & Hidle1 & Hused1 & Hcl1 & Hs1 & Hst1 & Htr1);
    try done.
  assert (Hin : c2 ∈ pool_used p1) by (rewrite Hused1; clear; set_solver).
  assert (Hex : execute c2 QAllNotes w1
                = (Ok tt, log_event (EvExecute c2 QAllNotes None)
                            (set_net_script [] w1))).
  { apply execute_answers; try done. rewrite Hcl1. clear -Hne Hlive2. set_solver. }
  pose proof (return_connection_cases
                (log_event (EvExecute c2 QAllNotes None) (set_net_script [] w1))
                p1 c2 false Hp1) as Hkeep.
  rewrite Hopen1, bool_decide_eq_true_2 in Hkeep by done.
  destruct Hkeep as (w3 & p3 & Hret & Hp3 & Hused3 & Hkeep).
  destruct (return_connection_spec c2 false
              (log_event (EvExecute c2 QAllNotes None) (set_net_script [] w1)) p1)
    as (w3' & p3' & Hret' & _ & _ & _ & _ & Htr3 & Hcl3 & _); try done.
  rewrite Hret in Hret'. injection Hret' as <-.
  exists w3, p3.
  split.
  { unfold get_all_notes, try_with_conn.
    unfold bind at 1, reify at 1, bind at 1. rewrite Hget.
    unfold ret at 1, bind at 1, reify at 1, bind at 1. rewrite Hex.
    unfold bind at 2, get_world, ret at 1. cbv beta match.
    unfold bind at 1. rewrite Hret. unfold ret. cbn.
    destruct Hst1 as (-> & _). done. }
  split; [done|].
  split; [apply Hcl3; cbn; rewrite Hcl1; clear; set_solver|].
  split.
  { rewrite Hused3, Hused1. apply set_eq. intros x. clear -Hu1 Hu2. set_solver. }
  split.
  { intros c Hc.
    destruct ((Z.of_nat (length (pool_idle p1)) <? minconn p1) && negb false).
    - destruct Hkeep as [_ Hi]. rewrite Hi, Hidle1 in Hc.
      case_bool_decide; [by right|].
      apply elem_of_cons in Hc as [->|Hc]; [by left|by right].
    - destruct Hkeep as [Hi _]. rewrite Hi, Hidle1 in Hc. by right. }
  rewrite Htr3. cbn. rewrite Htr1, <-!app_assoc, drop_app_length. reflexivity.
Qed.

Lemma stale_connection_tolerated_witness :
  ∃ w' p',
    get_all_notes (set_net_script [Some connection_lost; None; None] world_ready)
    = (Ok (select_all_notes (neron world_ready)), w')
    ∧ connection_pool w' = Some p'
    ∧ 1%nat ∈ conn_closed w'
    ∧ pool_used p' = ∅
    ∧ (∀ c, c ∈ pool_idle p' → c = 0%nat ∨ c ∈ @nil nat)
    ∧ acquisitions (drop (length (trace world_ready)) (trace w')) = 2%nat.
Proof.
  apply (stale_connection_tolerated
           (set_net_script [Some connection_lost; None; None] world_ready)
           (mkPool 2 10 false [1; 0]%nat ∅) 1 0 [] connection_lost);
    try reflexivity; try discriminate; cbn; apply not_elem_of_empty.
Defined.
